(** * Bowling score engine (bowling_classes_core.js) and RandomRoller

    A shallow embedding of the scoring classes of the repository:
    [ScoringFrame], [ScoringFrameList], [DisplayFrame], [DisplayFrameList]
    and [Game] from [bowling_classes_core.js], and the ability-level setter
    of [RandomRoller].

    Conventions of the embedding.
    - A pin count is an integer-valued JavaScript number, here a [Z].
    - A roll slot that "hasn't happened yet" is [null] in the source and
      [None] here; every call site of the repository passes either a number
      taken from the rolls array or the literal [null].
    - [numberOfFrames] is a count of frames, a [nat]; the source's
      [numberOfFrames - 1] is computed in [Z], as JavaScript does not
      truncate the subtraction.
    - A [throw] leaves the object as it was at that point; methods that can
      throw return an [outcome] together with the object after the call. *)

From Stdlib Require Import QArith ZArith String Ascii DecimalString Bool List Lia.
Import ListNotations.
Open Scope Z_scope.

(** ** JavaScript helpers *)

(** ToNumber on a slot: [null] counts as [0] in an arithmetic expression. *)
Definition num (o : option Z) : Z :=
  match o with
  | Some z => z
  | None => 0
  end.

(** [o == v] for a slot [o] and a number [v]: [null == v] is false. *)
Definition looseEq (o : option Z) (v : Z) : bool :=
  match o with
  | Some z => z =? v
  | None => false
  end.

(** [o != null] *)
Definition notNull (o : option Z) : bool :=
  match o with
  | Some _ => true
  | None => false
  end.

(** [o == null] *)
Definition isNull (o : option Z) : bool := negb (notNull o).

(** [o === 0] *)
Definition strictZero (o : option Z) : bool :=
  match o with
  | Some z => z =? 0
  | None => false
  end.

(** [n.toString()] for an integer-valued number. *)
Definition toString (z : Z) : string := NilZero.string_of_int (Z.to_int z).

(** The values a JavaScript number can take, over a carrier for the finite
    ones. *)
Inductive number (A : Type) : Type :=
| NaN
| NegInfinity
| PosInfinity
| Finite (a : A).
Arguments NaN {A}.
Arguments NegInfinity {A}.
Arguments PosInfinity {A}.
Arguments Finite {A} a.

(** The result of a method that may throw a string. *)
Inductive outcome (A : Type) : Type :=
| Returned (a : A)
| Thrown (message : string).
Arguments Returned {A} a.
Arguments Thrown {A} message.

Definition threw {A : Type} (o : outcome A) : bool :=
  match o with
  | Returned _ => false
  | Thrown _ => true
  end.

(** ** ScoringFrame: one scoring frame *)

Module ScoringFrame.

Record t : Type := mk {
  isLastFrame : bool;
  supportingScore : Z;
  valueForStrike : Z;
  roll1 : option Z;
  roll2 : option Z;
  roll3 : option Z;
  scoreForFrame : Z;
  runningScore : Z;
  isFirstRollStrike : bool;
  isSecondRollSpare : bool;
  isSecondRollStrike : bool;
  isThirdRollSpare : bool;
  isThirdRollStrike : bool;
  isComplete : bool;
  remainingPins : Z
}.

(** The constructor [ScoringFrame(roll1, roll2, roll3, isLastFrame,
    supportingScore, valueForStrike)]. *)
Definition new (r1 r2 r3 : option Z) (isLast : bool)
    (support vfs : Z) : t :=
  let scoreForFrame := num r1 + num r2 + num r3 in
  let runningScore := support + scoreForFrame in
  let isFirstRollStrike := looseEq r1 vfs in
  let isSecondRollSpare :=
    notNull r1 && negb isFirstRollStrike && notNull r2
    && (num r1 + num r2 =? vfs) in
  let isSecondRollStrike := isFirstRollStrike && looseEq r2 vfs in
  let isThirdRollSpare :=
    isFirstRollStrike && notNull r2 && notNull r3
    && negb isSecondRollStrike && (num r2 + num r3 =? vfs) in
  let isThirdRollStrike := looseEq r3 vfs && negb isThirdRollSpare in
  let isComplete :=
    if isFirstRollStrike && notNull r2 && notNull r3 then true
    else if isLast && isSecondRollStrike && notNull r3 then true
    else if isSecondRollSpare && notNull r3 then true
    else if negb isFirstRollStrike && negb isSecondRollSpare
            && notNull r1 && notNull r2 then true
    else false in
  let remainingPins :=
    if isLast && isComplete then 0
    else if isNull r1 then vfs
    else if isLast && isSecondRollStrike && isNull r3 then vfs
    else if isFirstRollStrike && isNull r2 then vfs
    else if isSecondRollSpare && isNull r3 then vfs
    else if isFirstRollStrike && isNull r3 then vfs - num r2
    else vfs - num r1 in
  {| isLastFrame := isLast;
     supportingScore := support;
     valueForStrike := vfs;
     roll1 := r1;
     roll2 := r2;
     roll3 := r3;
     scoreForFrame := scoreForFrame;
     runningScore := runningScore;
     isFirstRollStrike := isFirstRollStrike;
     isSecondRollSpare := isSecondRollSpare;
     isSecondRollStrike := isSecondRollStrike;
     isThirdRollSpare := isThirdRollSpare;
     isThirdRollStrike := isThirdRollStrike;
     isComplete := isComplete;
     remainingPins := remainingPins |}.

End ScoringFrame.

(** ** ScoringFrameList: the sequential scan over the rolls *)

Module ScoringFrameList.

(** The variables the [while] loop of the constructor updates. *)
Record scan : Type := mkScan {
  rollIndex : nat;
  frames : list ScoringFrame.t
}.

(** [a[a.length - 1]], when there is one. *)
Definition mostRecentOf (fs : list ScoringFrame.t) : option ScoringFrame.t :=
  match fs with
  | [] => None
  | _ => nth_error fs (length fs - 1)
  end.

Section Scan.
Variable rolls : list Z.
Variable valueForStrike : Z.
Variable numberOfFrames : nat.

Let rollCount : nat := length rolls.

(** One iteration of the loop body. *)
Definition iteration (st : scan) : scan :=
  let i := rollIndex st in
  let roll := nth_error rolls i in
  let rollNext :=
    if (i + 1 <? rollCount)%nat then nth_error rolls (i + 1) else None in
  let rollThird :=
    if (i + 2 <? rollCount)%nat then nth_error rolls (i + 2) else None in
  let supportingScore :=
    match mostRecentOf (frames st) with
    | Some f => ScoringFrame.runningScore f
    | None => 0
    end in
  let isLastFrame :=
    Z.of_nat (length (frames st)) =? Z.of_nat numberOfFrames - 1 in
  let '(sf, next) :=
    if notNull roll && looseEq roll valueForStrike then
      (ScoringFrame.new roll rollNext rollThird isLastFrame
         supportingScore valueForStrike,
       if isLastFrame then (rollCount + 1)%nat else (i + 1)%nat)
    else if notNull roll && notNull rollNext
            && (num roll + num rollNext =? valueForStrike) then
      (ScoringFrame.new roll rollNext rollThird isLastFrame
         supportingScore valueForStrike,
       (i + 2)%nat)
    else if notNull roll && notNull rollNext
            && (num roll + num rollNext <? valueForStrike) then
      (ScoringFrame.new roll rollNext None isLastFrame
         supportingScore valueForStrike,
       (i + 2)%nat)
    else
      (ScoringFrame.new roll None None isLastFrame
         supportingScore valueForStrike,
       (i + 1)%nat) in
  {| rollIndex :=
       if isLastFrame && ScoringFrame.isComplete sf
       then (rollCount + 1)%nat else next;
     frames := frames st ++ [sf] |}.

(** [while (rollIndex < rollCount) { ... }], with a bound on the number
    of iterations: every iteration advances [rollIndex], so [rollCount]
    iterations are enough (see [loop_exits]). *)
Fixpoint loop (fuel : nat) (st : scan) : scan :=
  match fuel with
  | O => st
  | S fuel' =>
      if (rollIndex st <? rollCount)%nat
      then loop fuel' (iteration st)
      else st
  end.

Definition scanned : scan :=
  loop rollCount {| rollIndex := 0; frames := [] |}.

End Scan.

Record t : Type := mk {
  valueForStrike : Z;
  numberOfFrames : nat;
  scoringFrames : list ScoringFrame.t;
  remainingPins : Z
}.

(** The [remainingPins] property computed after the loop.  When
    [noFramesYet] is false the array has a last element, so the [None]
    branch below is never taken. *)
Definition pinsAfter (fs : list ScoringFrame.t) (vfs : Z) (nf : nat) : Z :=
  let noFramesYet := (length fs =? 0)%nat in
  let inFinalFrame := (length fs =? nf)%nat in
  let mostRecent := if noFramesYet then None else mostRecentOf fs in
  if noFramesYet then vfs
  else match mostRecent with
       | Some m =>
           if inFinalFrame && ScoringFrame.isComplete m then 0
           else if ScoringFrame.isComplete m then vfs
           else ScoringFrame.remainingPins m
       | None => vfs
       end.

(** The constructor [ScoringFrameList(rolls, valueForStrike,
    numberOfFrames)]. *)
Definition new (rolls : list Z) (vfs : Z) (nf : nat) : t :=
  let fs := frames (scanned rolls vfs nf) in
  {| valueForStrike := vfs;
     numberOfFrames := nf;
     scoringFrames := fs;
     remainingPins := pinsAfter fs vfs nf |}.

Definition getFrames (l : t) : list ScoringFrame.t := scoringFrames l.

End ScoringFrameList.

(** ** DisplayFrame: how one frame is shown *)

Module DisplayFrame.

Record t : Type := mk {
  scoringFrame : ScoringFrame.t;
  strikeDisplay : string;
  spareDisplay : string;
  zeroDisplay : string;
  slot1 : string;
  slot2 : string;
  slot3 : string;
  score : string
}.

(** [typeof(x) !== 'undefined' ? x : d] *)
Definition orDefault (x : option string) (d : string) : string :=
  match x with
  | Some s => s
  | None => d
  end.

(** One display slot of a roll that carries no mark: the zero character,
    the number, or blank when the roll is not there. *)
Definition plain (zeroDisplay : string) (r : option Z) : string :=
  if notNull r && strictZero r then zeroDisplay
  else if notNull r then toString (num r)
  else EmptyString.

(** The constructor [DisplayFrame(scoringFrame, strikeDisplay,
    spareDisplay, zeroDisplay)]; an absent glyph is [None]. *)
Definition new (sf : ScoringFrame.t)
    (strike spare zero : option string) : t :=
  let strikeDisplay := orDefault strike "X" in
  let spareDisplay := orDefault spare "/" in
  let zeroDisplay := orDefault zero "-" in
  let '(slot1, slot2, slot3) :=
    if negb (ScoringFrame.isLastFrame sf) then
      (if ScoringFrame.isFirstRollStrike sf then EmptyString
       else plain zeroDisplay (ScoringFrame.roll1 sf),
       if ScoringFrame.isFirstRollStrike sf then strikeDisplay
       else if ScoringFrame.isSecondRollSpare sf then spareDisplay
       else plain zeroDisplay (ScoringFrame.roll2 sf),
       EmptyString)
    else
      (if ScoringFrame.isFirstRollStrike sf then strikeDisplay
       else plain zeroDisplay (ScoringFrame.roll1 sf),
       if ScoringFrame.isSecondRollStrike sf then strikeDisplay
       else if ScoringFrame.isSecondRollSpare sf then spareDisplay
       else plain zeroDisplay (ScoringFrame.roll2 sf),
       if ScoringFrame.isThirdRollStrike sf then strikeDisplay
       else if ScoringFrame.isThirdRollSpare sf then spareDisplay
       else plain zeroDisplay (ScoringFrame.roll3 sf)) in
  {| scoringFrame := sf;
     strikeDisplay := strikeDisplay;
     spareDisplay := spareDisplay;
     zeroDisplay := zeroDisplay;
     slot1 := slot1;
     slot2 := slot2;
     slot3 := slot3;
     score := if negb (ScoringFrame.isComplete sf) then EmptyString
              else toString (ScoringFrame.runningScore sf) |}.

End DisplayFrame.

(** ** DisplayFrameList: the scorecard, padded to the number of frames *)

Module DisplayFrameList.

Record t : Type := mk {
  scoringFramesList : ScoringFrameList.t;
  displayFrames : list DisplayFrame.t;
  strikeDisplay : string;
  spareDisplay : string;
  zeroDisplay : string
}.

(** The constructor [DisplayFrameList(scoringFramesList, strikeDisplay,
    spareDisplay, zeroDisplay)]: the first loop maps the scoring frames,
    the second one runs [i] from their number up to [numberOfFrames - 1]
    and appends an empty frame for each. *)
Definition new (l : ScoringFrameList.t)
    (strike spare zero : option string) : t :=
  let scoringFrames := ScoringFrameList.getFrames l in
  let nf := ScoringFrameList.numberOfFrames l in
  let shown :=
    map (fun sf => DisplayFrame.new sf strike spare zero) scoringFrames in
  let padding :=
    map (fun i : nat =>
           let sf :=
             ScoringFrame.new None None None
               (Z.of_nat i =? Z.of_nat nf - 1) 0
               (ScoringFrameList.valueForStrike l) in
           DisplayFrame.new sf strike spare zero)
        (seq (length scoringFrames) (nf - length scoringFrames)) in
  {| scoringFramesList := l;
     displayFrames := shown ++ padding;
     strikeDisplay := DisplayFrame.orDefault strike "X";
     spareDisplay := DisplayFrame.orDefault spare "/";
     zeroDisplay := DisplayFrame.orDefault zero "-" |}.

Definition getFrames (l : t) : list DisplayFrame.t := displayFrames l.

End DisplayFrameList.

(** ** Game: the roll history and its legality check *)

Module Game.

Record t : Type := mk {
  valueForStrike : Z;
  numberOfFrames : nat;
  strikeDisplay : string;
  spareDisplay : string;
  zeroDisplay : string;
  rolls : list Z;
  remainingPins : Z;
  isGameOver : bool
}.

(** The constructor [Game(valueForStrike, numberOfFrames, strikeDisplay,
    spareDisplay, zeroDisplay)]; an argument left out is [None]. *)
Definition new (vfs : option Z) (nf : option nat)
    (strike spare zero : option string) : t :=
  let valueForStrike := match vfs with Some v => v | None => 10 end in
  {| valueForStrike := valueForStrike;
     numberOfFrames := match nf with Some n => n | None => 10%nat end;
     strikeDisplay := DisplayFrame.orDefault strike "X";
     spareDisplay := DisplayFrame.orDefault spare "/";
     zeroDisplay := DisplayFrame.orDefault zero "-";
     rolls := [];
     remainingPins := valueForStrike;
     isGameOver := false |}.

(** [processRollsToScoringFrames()]: rebuilds the frames and refreshes
    [remainingPins] and [isGameOver]. *)
Definition processRollsToScoringFrames (g : t) : ScoringFrameList.t * t :=
  let scoringFrames :=
    ScoringFrameList.new (rolls g) (valueForStrike g) (numberOfFrames g) in
  let pins := ScoringFrameList.remainingPins scoringFrames in
  (scoringFrames,
   {| valueForStrike := valueForStrike g;
      numberOfFrames := numberOfFrames g;
      strikeDisplay := strikeDisplay g;
      spareDisplay := spareDisplay g;
      zeroDisplay := zeroDisplay g;
      rolls := rolls g;
      remainingPins := pins;
      isGameOver := pins =? 0 |}).

(** [processRolls()] *)
Definition processRolls (g : t) : DisplayFrameList.t * t :=
  let '(scoringFrames, g') := processRollsToScoringFrames g in
  (DisplayFrameList.new scoringFrames
     (Some (strikeDisplay g')) (Some (spareDisplay g'))
     (Some (zeroDisplay g')),
   g').

(** [newGame()] *)
Definition newGame (g : t) : t :=
  {| valueForStrike := valueForStrike g;
     numberOfFrames := numberOfFrames g;
     strikeDisplay := strikeDisplay g;
     spareDisplay := spareDisplay g;
     zeroDisplay := zeroDisplay g;
     rolls := [];
     remainingPins := valueForStrike g;
     isGameOver := false |}.

(** [addRoll(rollValue)], from [v = Number(rollValue)] on.  An infinity
    fails one side of [v <= remainingPins && v >= 0]; the number pushed on
    the history is the finite [v] that passed the test. *)
Definition addRoll (g : t) (v : number Z) : outcome Z * t :=
  if remainingPins g =? 0 then
    (Thrown "The game has ended.  No more rolls may be added", g)
  else
    match v with
    | NaN => (Thrown "The roll value must be a number.", g)
    | Finite z =>
        if (z <=? remainingPins g) && (z >=? 0) then
          let pushed :=
            {| valueForStrike := valueForStrike g;
               numberOfFrames := numberOfFrames g;
               strikeDisplay := strikeDisplay g;
               spareDisplay := spareDisplay g;
               zeroDisplay := zeroDisplay g;
               rolls := rolls g ++ [z];
               remainingPins := remainingPins g;
               isGameOver := isGameOver g |} in
          (Returned z, snd (processRollsToScoringFrames pushed))
        else
          (Thrown ("The value must be between 0 and "
                   ++ toString (remainingPins g)
                   ++ " for the next roll."), g)
    | NegInfinity | PosInfinity =>
        (Thrown ("The value must be between 0 and "
                 ++ toString (remainingPins g)
                 ++ " for the next roll."), g)
    end.

(** A caller that adds the rolls one after the other and stops at the
    first one that is refused. *)
Fixpoint addRolls (g : t) (vs : list Z) : outcome (list Z) * t :=
  match vs with
  | [] => (Returned [], g)
  | v :: rest =>
      match addRoll g (Finite v) with
      | (Returned z, g') =>
          match addRolls g' rest with
          | (Returned zs, g'') => (Returned (z :: zs), g'')
          | (Thrown m, g'') => (Thrown m, g'')
          end
      | (Thrown m, g') => (Thrown m, g')
      end
  end.

End Game.

(** ** RandomRoller: the ability level of a pretend bowler *)

Module RandomRoller.

(** The values the setter can be handed; [typeof] tells the numbers from
    the rest.  A finite number is a rational here: the setter only
    compares it with [0] and [1]. *)
Inductive value : Type :=
| Undefined
| Null
| Boolean (b : bool)
| Str (s : string)
| Object
| Number (n : number Q).

Definition isNumber (x : value) : bool :=
  match x with
  | Number _ => true
  | _ => false
  end.

(** [n < q]; every comparison with [NaN] is false. *)
Definition lt (n : number Q) (q : Q) : bool :=
  match n with
  | NaN => false
  | NegInfinity => true
  | PosInfinity => false
  | Finite a => negb (Qle_bool q a)
  end.

(** [n > q] *)
Definition gt (n : number Q) (q : Q) : bool :=
  match n with
  | NaN => false
  | NegInfinity => false
  | PosInfinity => true
  | Finite a => negb (Qle_bool a q)
  end.

Record t : Type := mk {
  pctToHitRemainingPins : number Q
}.

Definition getPctToHitRemainingPins (r : t) : number Q :=
  pctToHitRemainingPins r.

(** [setPctToHitRemainingPins(newValue)] *)
Definition setPctToHitRemainingPins (r : t) (newValue : value)
    : outcome unit * t :=
  match newValue with
  | Number n =>
      if lt n 0%Q || gt n 1%Q then
        (Thrown "The RandomRoller.pctToHitRemainingPins property must be a decimal number between 0 and 1 inclusive.",
         r)
      else (Returned tt, {| pctToHitRemainingPins := n |})
  | _ =>
      (Thrown "The RandomRoller.pctToHitRemainingPins property must be a number.",
       r)
  end.

(** The constructor [RandomRoller(pctToHitRemainingPins)]: the property is
    first set to [0], then the setter is called with the argument, or
    with [0] when it was left out.  When the setter throws, so does the
    constructor. *)
Definition new (pct : value) : outcome t :=
  let initial := {| pctToHitRemainingPins := Finite 0%Q |} in
  let pctToHitValue :=
    match pct with
    | Undefined => Number (Finite 0%Q)
    | _ => pct
    end in
  match setPctToHitRemainingPins initial pctToHitValue with
  | (Returned _, r) => Returned r
  | (Thrown m, _) => Thrown m
  end.

End RandomRoller.

(** ** The scan as a recursion on the rolls that are left

    [framesFrom c support rs] are the frames the loop appends when [c] frames
    exist already, the last of them has running score [support], and [rs]
    are the rolls from [rollIndex] on.  [scan_framesFrom] proves that the
    loop computes exactly this. *)

Section Rules.
Variable valueForStrike : Z.
Variable numberOfFrames : nat.

Definition isLast (c : nat) : bool :=
  Z.of_nat c =? Z.of_nat numberOfFrames - 1.

Fixpoint framesFrom (c : nat) (support : Z) (rs : list Z)
    : list ScoringFrame.t :=
  match rs with
  | [] => []
  | roll :: rest =>
      match rest with
      | [] =>
          [ScoringFrame.new (Some roll) None None (isLast c) support
             valueForStrike]
      | rollNext :: rest2 =>
          let rollThird := hd_error rest2 in
          if roll =? valueForStrike then
            let sf :=
              ScoringFrame.new (Some roll) (Some rollNext) rollThird
                (isLast c) support valueForStrike in
            sf :: (if isLast c then []
                   else framesFrom (S c) (ScoringFrame.runningScore sf) rest)
          else if roll + rollNext =? valueForStrike then
            let sf :=
              ScoringFrame.new (Some roll) (Some rollNext) rollThird
                (isLast c) support valueForStrike in
            sf :: (if isLast c && ScoringFrame.isComplete sf then []
                   else framesFrom (S c) (ScoringFrame.runningScore sf) rest2)
          else if roll + rollNext <? valueForStrike then
            let sf :=
              ScoringFrame.new (Some roll) (Some rollNext) None
                (isLast c) support valueForStrike in
            sf :: (if isLast c && ScoringFrame.isComplete sf then []
                   else framesFrom (S c) (ScoringFrame.runningScore sf) rest2)
          else
            let sf :=
              ScoringFrame.new (Some roll) None None
                (isLast c) support valueForStrike in
            sf :: (if isLast c && ScoringFrame.isComplete sf then []
                   else framesFrom (S c) (ScoringFrame.runningScore sf) rest)
      end
  end.

(** The running score the next frame is built on. *)
Definition supportOf (fs : list ScoringFrame.t) : Z :=
  match ScoringFrameList.mostRecentOf fs with
  | Some f => ScoringFrame.runningScore f
  | None => 0
  end.

(** [pinsAfter] for a list of frames of which the first is frame number
    [c] (counted from 0). *)
Definition pinsFrom (c : nat) (fs : list ScoringFrame.t) : Z :=
  match ScoringFrameList.mostRecentOf fs with
  | None => valueForStrike
  | Some m =>
      if ((c + length fs =? numberOfFrames)%nat
          && ScoringFrame.isComplete m) then 0
      else if ScoringFrame.isComplete m then valueForStrike
      else ScoringFrame.remainingPins m
  end.

(** The roll lists [Game.addRoll] can build, read frame by frame from
    frame number [c] on: every roll is between [0] and the pins standing,
    and nothing follows the last frame. *)
Fixpoint legal (c : nat) (rs : list Z) : Prop :=
  match rs with
  | [] => True
  | r :: rest =>
      0 <= r <= valueForStrike /\
      match rest with
      | [] => True
      | r2 :: rest2 =>
          if r =? valueForStrike then
            if isLast c then
              0 <= r2 <= valueForStrike /\
              match rest2 with
              | [] => True
              | r3 :: rest3 =>
                  0 <= r3 /\
                  (if r2 =? valueForStrike then r3 <= valueForStrike
                   else r2 + r3 <= valueForStrike) /\
                  rest3 = []
              end
            else legal (S c) rest
          else
            0 <= r2 /\ r + r2 <= valueForStrike /\
            if isLast c then
              if r + r2 =? valueForStrike then
                match rest2 with
                | [] => True
                | r3 :: rest3 => 0 <= r3 <= valueForStrike /\ rest3 = []
                end
              else rest2 = []
            else legal (S c) rest2
      end
  end.

End Rules.

(** ** What the claims speak of *)

(** The last element of a list. *)
Fixpoint lastOf {A : Type} (l : list A) : option A :=
  match l with
  | [] => None
  | a :: tl =>
      match tl with
      | [] => Some a
      | _ => lastOf tl
      end
  end.




(** The same as a test. *)
Fixpoint completedFirstb (fs : list ScoringFrame.t) : bool :=
  match fs with
  | [] => true
  | f :: tl =>
      if ScoringFrame.isComplete f then completedFirstb tl
      else forallb (fun g => negb (ScoringFrame.isComplete g)) tl
  end.


(** The states a [Game] goes through: it is constructed, and then any of its
    methods is called any number of times; a call of [addRoll] that throws
    leaves the state it returns with. *)
Inductive reachable (start : Game.t) : Game.t -> Prop :=
| reach_constructed : reachable start start
| reach_addRoll (g : Game.t) (v : number Z) :
    reachable start g -> reachable start (snd (Game.addRoll g v))
| reach_newGame (g : Game.t) :
    reachable start g -> reachable start (Game.newGame g)
| reach_processRolls (g : Game.t) :
    reachable start g -> reachable start (snd (Game.processRolls g))
| reach_processRollsToScoringFrames (g : Game.t) :
    reachable start g ->
    reachable start (snd (Game.processRollsToScoringFrames g)).

(** The frames of a game's current history. *)
Definition framesOf (g : Game.t) : list ScoringFrame.t :=
  ScoringFrameList.getFrames (fst (Game.processRollsToScoringFrames g)).

(** A number inside [[lo, hi]]; [NaN] and the infinities are not. *)
Definition within (v : number Z) (lo hi : Z) : Prop :=
  match v with
  | Finite z => lo <= z <= hi
  | _ => False
  end.

(** The invariant of a game: its history is legal and [remainingPins] is
    the value the scan gives for it. *)
Definition consistent (g : Game.t) : Prop :=
  legal (Game.valueForStrike g) (Game.numberOfFrames g) 0 (Game.rolls g)
  /\ Game.remainingPins g
     = pinsFrom (Game.valueForStrike g) (Game.numberOfFrames g) 0
         (framesFrom (Game.valueForStrike g) (Game.numberOfFrames g) 0 0
            (Game.rolls g)).


(** Twelve strikes. *)
Definition perfect : list Z := repeat 10 12.

(** [new Game(10, 10)] *)
Definition standard : Game.t :=
  Game.new (Some 10) (Some 10%nat) None None None.

(** [new Game()] *)
Definition defaults : Game.t := Game.new None None None None None.

(** [new Game(0, 10)] *)
Definition pinless : Game.t := Game.new (Some 0) (Some 10%nat) None None None.


(** A display frame that shows nothing. *)
Definition blank (d : DisplayFrame.t) : Prop :=
  DisplayFrame.slot1 d = EmptyString
  /\ DisplayFrame.slot2 d = EmptyString
  /\ DisplayFrame.slot3 d = EmptyString
  /\ DisplayFrame.score d = EmptyString.

(** A number [n] with [0 <= n <= 1]. *)
Definition unitInterval (n : number Q) : Prop :=
  match n with
  | Finite q => (0 <= q /\ q <= 1)%Q
  | _ => False
  end.

(** ** What the further properties speak of *)

(** Every frame is built on the running score of the frame before it
    ([support] for the first) and adds its own score to it. *)
Fixpoint carried (support : Z) (fs : list ScoringFrame.t) : Prop :=
  match fs with
  | [] => True
  | f :: tl =>
      ScoringFrame.supportingScore f = support
      /\ ScoringFrame.runningScore f
         = ScoringFrame.supportingScore f + ScoringFrame.scoreForFrame f
      /\ carried (ScoringFrame.runningScore f) tl
  end.

(** A roll between 0 and all the pins. *)
Definition inRange (vfs : Z) (r : Z) : Prop := 0 <= r <= vfs.

(** The scan has ended the game: counting from frame number [c], the frame
    list is full and its last frame is complete. *)
Definition finishedFrom (nf c : nat) (fs : list ScoringFrame.t) : Prop :=
  (c + length fs = nf)%nat
  /\ exists m, lastOf fs = Some m /\ ScoringFrame.isComplete m = true.

(** A strike, then 3 and 4. *)
Definition sampleRolls : list Z := [10; 3; 4].

(** A default game after a strike and a 3. *)
Definition sampleGame : Game.t := snd (Game.addRolls defaults [10; 3]).

(** The display frames [processRolls()] returns. *)
Definition card (g : Game.t) : list DisplayFrame.t :=
  DisplayFrameList.getFrames (fst (Game.processRolls g)).

(** ** DisplayFrame of bowling_classes.js *)

Module WebDisplayFrame.

(** The constructor [DisplayFrame] of [bowling_classes.js], the copy of the
    engine inside the web page module: [slot1] is computed the same way for
    every frame, and a frame that is not the last leaves [slot2] blank after
    a strike. *)
Definition new (sf : ScoringFrame.t)
    (strike spare zero : option string) : DisplayFrame.t :=
  let strikeDisplay := DisplayFrame.orDefault strike "X" in
  let spareDisplay := DisplayFrame.orDefault spare "/" in
  let zeroDisplay := DisplayFrame.orDefault zero "-" in
  let slot1 :=
    if ScoringFrame.isFirstRollStrike sf then strikeDisplay
    else DisplayFrame.plain zeroDisplay (ScoringFrame.roll1 sf) in
  let '(slot2, slot3) :=
    if negb (ScoringFrame.isLastFrame sf) then
      (if ScoringFrame.isFirstRollStrike sf then EmptyString
       else if ScoringFrame.isSecondRollSpare sf then spareDisplay
       else DisplayFrame.plain zeroDisplay (ScoringFrame.roll2 sf),
       EmptyString)
    else
      (if ScoringFrame.isSecondRollStrike sf then strikeDisplay
       else if ScoringFrame.isSecondRollSpare sf then spareDisplay
       else DisplayFrame.plain zeroDisplay (ScoringFrame.roll2 sf),
       if ScoringFrame.isThirdRollStrike sf then strikeDisplay
       else if ScoringFrame.isThirdRollSpare sf then spareDisplay
       else DisplayFrame.plain zeroDisplay (ScoringFrame.roll3 sf)) in
  {| DisplayFrame.scoringFrame := sf;
     DisplayFrame.strikeDisplay := strikeDisplay;
     DisplayFrame.spareDisplay := spareDisplay;
     DisplayFrame.zeroDisplay := zeroDisplay;
     DisplayFrame.slot1 := slot1;
     DisplayFrame.slot2 := slot2;
     DisplayFrame.slot3 := slot3;
     DisplayFrame.score :=
       if negb (ScoringFrame.isComplete sf) then EmptyString
       else toString (ScoringFrame.runningScore sf) |}.

End WebDisplayFrame.

(** ** The value handed to [addRoll] *)

Module JS.

(** The values a caller can hand to a function: [undefined], [null], a
    boolean, a number, a string, or an object, which stands with the
    primitive value its conversion to a primitive yields (the empty string
    for the empty array). *)
Inductive value : Type :=
| Undefined
| Null
| Boolean (b : bool)
| Number (n : number Q)
| String (s : string)
| Object (primitive : value).

(** [typeof(x) == 'number'] *)
Definition isNumber (x : value) : bool :=
  match x with
  | Number _ => true
  | _ => false
  end.

(** The built-in [Number(x)].  The empty string is 0; what the built-in
    reads in the characters of any other string is [StringToNumber]. *)
Fixpoint ToNumber (StringToNumber : string -> number Q) (x : value)
    : number Q :=
  match x with
  | Undefined => NaN
  | Null => Finite 0%Q
  | Boolean b => Finite (if b then 1%Q else 0%Q)
  | Number n => n
  | String EmptyString => Finite 0%Q
  | String s => StringToNumber s
  | Object primitive => ToNumber StringToNumber primitive
  end.

End JS.

(** The integer a finite number is, when it is one. *)
Definition integral (q : Q) : option Z :=
  if Pos.eqb (Qden (Qred q)) 1 then Some (Qnum (Qred q)) else None.

(** The game after a call of [addRoll]: a game of whole rolls, or a history
    that has taken a roll that is not whole; the frames of such a history
    are not followed further. *)
Inductive held : Type :=
| Within (g : Game.t)
| Beyond (rolls : list Q).

(** The rolls of the history, as numbers. *)
Definition historyOf (h : held) : list Q :=
  match h with
  | Within g => map inject_Z (Game.rolls g)
  | Beyond rolls => rolls
  end.

(** [addRoll(rollValue)] from the value handed in: the test of the end of
    the game, [v = Number(rollValue)], [isNaN(v)], and
    [v <= remainingPins && v >= 0]. *)
Definition addRollValue (StringToNumber : string -> number Q) (g : Game.t)
    (rollValue : JS.value) : outcome Q * held :=
  if Game.remainingPins g =? 0 then
    (Thrown "The game has ended.  No more rolls may be added", Within g)
  else
    let v := JS.ToNumber StringToNumber rollValue in
    match v with
    | NaN => (Thrown "The roll value must be a number.", Within g)
    | Finite q =>
        if Qle_bool q (inject_Z (Game.remainingPins g)) && Qle_bool 0 q then
          (Returned q,
           match integral q with
           | Some z =>
               let pushed :=
                 {| Game.valueForStrike := Game.valueForStrike g;
                    Game.numberOfFrames := Game.numberOfFrames g;
                    Game.strikeDisplay := Game.strikeDisplay g;
                    Game.spareDisplay := Game.spareDisplay g;
                    Game.zeroDisplay := Game.zeroDisplay g;
                    Game.rolls := Game.rolls g ++ [z];
                    Game.remainingPins := Game.remainingPins g;
                    Game.isGameOver := Game.isGameOver g |} in
               Within (snd (Game.processRollsToScoringFrames pushed))
           | None => Beyond (map inject_Z (Game.rolls g) ++ [q])
           end)
        else
          (Thrown ("The value must be between 0 and "
                   ++ toString (Game.remainingPins g)
                   ++ " for the next roll."), Within g)
    | NegInfinity | PosInfinity =>
        (Thrown ("The value must be between 0 and "
                 ++ toString (Game.remainingPins g)
                 ++ " for the next roll."), Within g)
    end.

(** A finite number, whole or not, inside [[lo, hi]]. *)
Definition withinQ (v : number Q) (lo hi : Z) : Prop :=
  match v with
  | Finite q => (inject_Z lo <= q /\ q <= inject_Z hi)%Q
  | _ => False
  end.

(** The values that are no numbers and that [Number] turns into 0 or 1:
    [null], [false], [true], the empty string and the empty array. *)
Definition coerced : list (JS.value * Z) :=
  [(JS.Null, 0); (JS.Boolean false, 0); (JS.Boolean true, 1);
   (JS.String EmptyString, 0); (JS.Object (JS.String EmptyString), 0)].

(** * Proofs *)

(** ** Tactics *)

Ltac frame_fields :=
  unfold ScoringFrame.new;
  cbn [ScoringFrame.isComplete ScoringFrame.remainingPins
       ScoringFrame.runningScore ScoringFrame.scoreForFrame
       ScoringFrame.isFirstRollStrike ScoringFrame.isSecondRollSpare
       ScoringFrame.isSecondRollStrike ScoringFrame.isThirdRollSpare
       ScoringFrame.isThirdRollStrike ScoringFrame.isLastFrame
       ScoringFrame.roll1 ScoringFrame.roll2 ScoringFrame.roll3
       looseEq notNull isNull num strictZero hd_error negb andb orb].

Ltac tests :=
  repeat match goal with
         | |- context [?a =? ?b] => destruct (Z.eqb_spec a b)
         | |- context [?a <? ?b] => destruct (Z.ltb_spec a b)
         | H : context [?a =? ?b] |- _ => destruct (Z.eqb_spec a b)
         | H : context [?a <? ?b] |- _ => destruct (Z.ltb_spec a b)
         end.

Ltac frame_solve :=
  frame_fields;
  repeat first [progress tests | progress cbn [andb negb orb]];
  try reflexivity; try lia.


(** ** Lists *)

Lemma list_ind2 {A : Type} (P : list A -> Prop) :
  P [] ->
  (forall a, P [a]) ->
  (forall a b l, P l -> P (b :: l) -> P (a :: b :: l)) ->
  forall l, P l.
Proof.
  intros H0 H1 H2 l.
  assert (H : P l /\ forall a, P (a :: l)).
  { induction l as [|b l [IHl IHc]]; split; auto. }
  apply H.
Qed.


Lemma mostRecentOf_snoc (fs : list ScoringFrame.t) (f : ScoringFrame.t) :
  ScoringFrameList.mostRecentOf (fs ++ [f]) = Some f.
Proof.
  unfold ScoringFrameList.mostRecentOf.
  destruct (fs ++ [f]) eqn:E.
  - destruct fs; discriminate.
  - rewrite <- E, length_app, nth_error_app2; cbn [length]; [|lia].
    replace (length fs + 1 - 1 - length fs)%nat with 0%nat by lia. reflexivity.
Qed.

Lemma mostRecentOf_lastOf (fs : list ScoringFrame.t) :
  ScoringFrameList.mostRecentOf fs = lastOf fs.
Proof.
  induction fs as [|f tl IH]; [reflexivity|].
  destruct tl as [|g tl]; [reflexivity|].
  change (lastOf (f :: g :: tl)) with (lastOf (g :: tl)). rewrite <- IH.
  unfold ScoringFrameList.mostRecentOf. cbn [length].
  replace (S (S (length tl)) - 1)%nat with (S (S (length tl) - 1)) by lia.
  reflexivity.
Qed.

Lemma hd_error_skipn {A : Type} (l : list A) (n : nat) :
  hd_error (skipn n l) = nth_error l n.
Proof.
  revert l; induction n as [|n IH]; intros [|a l]; cbn; auto.
Qed.

Lemma skipn_step {A : Type} (l : list A) (n : nat) :
  (n < length l)%nat ->
  exists a, nth_error l n = Some a /\ skipn n l = a :: skipn (S n) l.
Proof.
  revert l; induction n as [|n IH]; intros [|a l] H; cbn in *; try lia.
  - eauto.
  - apply IH. lia.
Qed.

Lemma skipn_S_tl {A : Type} (l : list A) (n : nat) :
  skipn (S n) l = tl (skipn n l).
Proof.
  revert l; induction n as [|n IH]; intros [|a l]; try reflexivity.
  exact (IH l).
Qed.

Lemma guarded_nth_error {A : Type} (l : list A) (n : nat) :
  (if (n <? length l)%nat then nth_error l n else None) = nth_error l n.
Proof.
  destruct (Nat.ltb_spec n (length l)); [reflexivity|].
  symmetry. apply nth_error_None. lia.
Qed.

Lemma framesFrom_one (vfs : Z) (nf c : nat) (s roll : Z) :
  framesFrom vfs nf c s [roll]
  = [ScoringFrame.new (Some roll) None None (isLast nf c) s vfs].
Proof. reflexivity. Qed.

Lemma framesFrom_two (vfs : Z) (nf c : nat) (s roll rollNext : Z)
    (rest2 : list Z) :
  framesFrom vfs nf c s (roll :: rollNext :: rest2)
  = if roll =? vfs then
      let sf := ScoringFrame.new (Some roll) (Some rollNext) (hd_error rest2)
                  (isLast nf c) s vfs in
      sf :: (if isLast nf c then []
             else framesFrom vfs nf (S c) (ScoringFrame.runningScore sf)
                    (rollNext :: rest2))
    else if roll + rollNext =? vfs then
      let sf := ScoringFrame.new (Some roll) (Some rollNext) (hd_error rest2)
                  (isLast nf c) s vfs in
      sf :: (if isLast nf c && ScoringFrame.isComplete sf then []
             else framesFrom vfs nf (S c) (ScoringFrame.runningScore sf) rest2)
    else if roll + rollNext <? vfs then
      let sf := ScoringFrame.new (Some roll) (Some rollNext) None
                  (isLast nf c) s vfs in
      sf :: (if isLast nf c && ScoringFrame.isComplete sf then []
             else framesFrom vfs nf (S c) (ScoringFrame.runningScore sf) rest2)
    else
      let sf := ScoringFrame.new (Some roll) None None (isLast nf c) s vfs in
      sf :: (if isLast nf c && ScoringFrame.isComplete sf then []
             else framesFrom vfs nf (S c) (ScoringFrame.runningScore sf)
                    (rollNext :: rest2)).
Proof. reflexivity. Qed.

Section ScanFacts.
Variable rolls : list Z.
Variable vfs : Z.
Variable nf : nat.

Lemma iteration_advances (st : ScoringFrameList.scan) :
  (ScoringFrameList.rollIndex st
   < ScoringFrameList.rollIndex (ScoringFrameList.iteration rolls vfs nf st))%nat
  \/ (length rolls
      < ScoringFrameList.rollIndex (ScoringFrameList.iteration rolls vfs nf st))%nat.
Proof.
  unfold ScoringFrameList.iteration.
  repeat match goal with
         | |- context [if ?b then _ else _] => destruct b
         end; cbn; lia.
Qed.

Lemma loop_exits_from (fuel : nat) (st : ScoringFrameList.scan) :
  (length rolls - ScoringFrameList.rollIndex st <= fuel)%nat ->
  (length rolls
   <= ScoringFrameList.rollIndex (ScoringFrameList.loop rolls vfs nf fuel st))%nat.
Proof.
  revert st; induction fuel as [|fuel IH]; intros st H; cbn [ScoringFrameList.loop].
  - lia.
  - destruct (Nat.ltb_spec (ScoringFrameList.rollIndex st) (length rolls)).
    + apply IH. pose proof (iteration_advances st). lia.
    + lia.
Qed.

Lemma iteration_framesFrom (i : nat) (fs : list ScoringFrame.t) :
  (i < length rolls)%nat ->
  exists sf i',
    ScoringFrameList.iteration rolls vfs nf
      {| ScoringFrameList.rollIndex := i; ScoringFrameList.frames := fs |}
    = {| ScoringFrameList.rollIndex := i';
         ScoringFrameList.frames := fs ++ [sf] |}
    /\ framesFrom vfs nf (length fs) (supportOf fs) (skipn i rolls)
       = sf :: framesFrom vfs nf (S (length fs))
                 (ScoringFrame.runningScore sf) (skipn i' rolls).
Proof.
  intros Hi.
  destruct (skipn_step rolls i Hi) as (roll & Hroll & Hskip).
  assert (Hend : skipn (length rolls + 1) rolls = [])
    by (apply skipn_all2; lia).
  unfold ScoringFrameList.iteration.
  cbn [ScoringFrameList.rollIndex ScoringFrameList.frames].
  rewrite !guarded_nth_error, Hroll, Hskip.
  fold (supportOf fs). fold (isLast nf (length fs)).
  replace (i + 1)%nat with (S i) by lia.
  replace (i + 2)%nat with (S (S i)) by lia.
  rewrite <- !hd_error_skipn.
  pose proof (skipn_S_tl rolls (S i)) as Hsk2.
  destruct (skipn (S i) rolls) as [|rollNext rest2] eqn:Hrest;
    rewrite Hsk2; cbn [tl] in Hsk2.
  - rewrite framesFrom_one.
    cbn [hd_error tl notNull looseEq num andb].
    destruct (roll =? vfs), (isLast nf (length fs)); cbn [andb];
      try match goal with
          | |- context [if ?b then _ else _] => destruct b
          end;
      eexists; eexists; (split; [reflexivity|]);
      rewrite ?Hend, ?Hrest; reflexivity.
  - rewrite framesFrom_two.
    cbn [hd_error tl notNull looseEq num andb].
    destruct (roll =? vfs); cbn [andb].
    + destruct (isLast nf (length fs)); cbn [andb];
        try match goal with
            | |- context [if ?b then _ else _] => destruct b
            end;
        eexists; eexists; (split; [reflexivity|]);
        rewrite ?Hend, ?Hrest, ?Hsk2; reflexivity.
    + destruct (roll + rollNext =? vfs);
        [|destruct (roll + rollNext <? vfs)];
        match goal with
        | |- context [ScoringFrame.isComplete ?f] =>
            destruct (isLast nf (length fs) && ScoringFrame.isComplete f)
        end;
        eexists; eexists; (split; [reflexivity|]);
        rewrite ?Hend, ?Hrest, ?Hsk2; reflexivity.
Qed.

Lemma loop_framesFrom (fuel : nat) (st : ScoringFrameList.scan) :
  (length rolls - ScoringFrameList.rollIndex st <= fuel)%nat ->
  ScoringFrameList.frames (ScoringFrameList.loop rolls vfs nf fuel st)
  = ScoringFrameList.frames st
    ++ framesFrom vfs nf (length (ScoringFrameList.frames st))
         (supportOf (ScoringFrameList.frames st))
         (skipn (ScoringFrameList.rollIndex st) rolls).
Proof.
  revert st; induction fuel as [|fuel IH]; intros [i fs] H;
    cbn [ScoringFrameList.loop ScoringFrameList.rollIndex
         ScoringFrameList.frames] in *.
  - rewrite skipn_all2 by lia. cbn. now rewrite app_nil_r.
  - destruct (Nat.ltb_spec i (length rolls)) as [Hi|Hi].
    2:{ rewrite skipn_all2 by lia. cbn. now rewrite app_nil_r. }
    pose proof (iteration_advances
                  {| ScoringFrameList.rollIndex := i;
                     ScoringFrameList.frames := fs |}) as Hadv.
    destruct (iteration_framesFrom i fs Hi) as (sf & i' & Hit & Hfr).
    rewrite Hit in *. cbn [ScoringFrameList.rollIndex] in Hadv.
    rewrite IH by (cbn [ScoringFrameList.rollIndex]; lia).
    cbn [ScoringFrameList.rollIndex ScoringFrameList.frames].
    rewrite Hfr, length_app, <- app_assoc. cbn [length app].
    unfold supportOf at 1. rewrite mostRecentOf_snoc.
    now replace (length fs + 1)%nat with (S (length fs)) by lia.
Qed.

Lemma scan_framesFrom :
  ScoringFrameList.scoringFrames (ScoringFrameList.new rolls vfs nf)
  = framesFrom vfs nf 0 0 rolls.
Proof.
  cbn [ScoringFrameList.new ScoringFrameList.scoringFrames].
  unfold ScoringFrameList.scanned.
  rewrite loop_framesFrom by (cbn; lia). reflexivity.
Qed.

Lemma loop_exits :
  (length rolls
   <= ScoringFrameList.rollIndex (ScoringFrameList.scanned rolls vfs nf))%nat.
Proof.
  apply loop_exits_from. cbn. lia.
Qed.
End ScanFacts.

(** ** Legal roll lists *)

Section LegalFacts.
Variable vfs : Z.
Variable nf : nat.

Local Abbreviation F := (framesFrom vfs nf).
Local Abbreviation pins := (pinsFrom vfs nf).
Local Abbreviation ok := (legal vfs nf).

Lemma isLast_spec (c : nat) : isLast nf c = (S c =? nf)%nat.
Proof.
  unfold isLast.
  destruct (Z.eqb_spec (Z.of_nat c) (Z.of_nat nf - 1)),
           (Nat.eqb_spec (S c) nf); auto; lia.
Qed.

Lemma pinsFrom_one (c : nat) (f : ScoringFrame.t) :
  pins c [f]
  = if isLast nf c && ScoringFrame.isComplete f then 0
    else if ScoringFrame.isComplete f then vfs
    else ScoringFrame.remainingPins f.
Proof.
  unfold pinsFrom. cbn [ScoringFrameList.mostRecentOf length nth_error Nat.sub].
  rewrite isLast_spec. now replace (c + 1)%nat with (S c) by lia.
Qed.

Lemma pinsFrom_cons (c : nat) (f g : ScoringFrame.t)
    (tl : list ScoringFrame.t) :
  pins c (f :: g :: tl) = pins (S c) (g :: tl).
Proof.
  unfold pinsFrom. rewrite !mostRecentOf_lastOf.
  change (lastOf (f :: g :: tl)) with (lastOf (g :: tl)).
  cbn [length]. now replace (c + S (S (length tl)))%nat
    with (S c + S (length tl))%nat by lia.
Qed.

Lemma framesFrom_nonempty (c : nat) (s r : Z) (rest : list Z) :
  exists f tl, F c s (r :: rest) = f :: tl.
Proof.
  destruct rest as [|r2 rest2]; [rewrite framesFrom_one; eauto|].
  rewrite framesFrom_two.
  repeat match goal with
         | |- context [if ?b then _ else _] => destruct b
         end; cbv zeta; eauto.
Qed.

Lemma pinsFrom_step (c : nat) (f : ScoringFrame.t) (s r : Z)
    (rest : list Z) :
  pins c (f :: F (S c) s (r :: rest)) = pins (S c) (F (S c) s (r :: rest)).
Proof.
  destruct (framesFrom_nonempty (S c) s r rest) as (g & tl & ->).
  apply pinsFrom_cons.
Qed.

Lemma single_complete (r s : Z) (l : bool) :
  ScoringFrame.isComplete (ScoringFrame.new (Some r) None None l s vfs)
  = false.
Proof. destruct l; frame_solve. Qed.

Lemma single_pins (r s : Z) (l : bool) :
  ScoringFrame.remainingPins (ScoringFrame.new (Some r) None None l s vfs)
  = if r =? vfs then vfs else vfs - r.
Proof. destruct l; frame_solve. Qed.

Lemma strike_complete (r2 r3 : option Z) (s : Z) (l : bool) :
  ScoringFrame.isComplete (ScoringFrame.new (Some vfs) r2 r3 l s vfs)
  = notNull r2 && notNull r3.
Proof.
  destruct r2, r3, l; frame_solve.
Qed.

Lemma strike_pins (r2 s : Z) (l : bool) :
  ScoringFrame.remainingPins
    (ScoringFrame.new (Some vfs) (Some r2) None l s vfs)
  = if l && (r2 =? vfs) then vfs else vfs - r2.
Proof.
  destruct l; frame_solve.
Qed.

Lemma spare_complete (r r2 s : Z) (r3 : option Z) (l : bool) :
  r <> vfs -> r + r2 = vfs ->
  ScoringFrame.isComplete (ScoringFrame.new (Some r) (Some r2) r3 l s vfs)
  = notNull r3.
Proof.
  intros Hr Hs. destruct r3, l; frame_solve.
Qed.

Lemma spare_pins (r r2 s : Z) (l : bool) :
  r <> vfs -> r + r2 = vfs ->
  ScoringFrame.remainingPins
    (ScoringFrame.new (Some r) (Some r2) None l s vfs)
  = vfs.
Proof.
  intros Hr Hs. destruct l; frame_solve.
Qed.

Lemma open_complete (r r2 s : Z) (r3 : option Z) (l : bool) :
  r <> vfs -> r + r2 <> vfs ->
  ScoringFrame.isComplete (ScoringFrame.new (Some r) (Some r2) r3 l s vfs)
  = true.
Proof.
  intros Hr Hs. destruct r3, l; frame_solve.
Qed.

Lemma legal_one (c : nat) (r : Z) :
  ok c [r] = (0 <= r <= vfs /\ True).
Proof. reflexivity. Qed.

Lemma legal_two (c : nat) (r r2 : Z) (rest2 : list Z) :
  ok c (r :: r2 :: rest2)
  = (0 <= r <= vfs /\
     if r =? vfs then
       if isLast nf c then
         0 <= r2 <= vfs /\
         match rest2 with
         | [] => True
         | r3 :: rest3 =>
             0 <= r3 /\
             (if r2 =? vfs then r3 <= vfs else r2 + r3 <= vfs) /\
             rest3 = []
         end
       else ok (S c) (r2 :: rest2)
     else
       0 <= r2 /\ r + r2 <= vfs /\
       if isLast nf c then
         if r + r2 =? vfs then
           match rest2 with
           | [] => True
           | r3 :: rest3 => 0 <= r3 <= vfs /\ rest3 = []
           end
         else rest2 = []
       else ok (S c) rest2).
Proof. reflexivity. Qed.

Lemma legal_snoc (rs : list Z) :
  forall (c : nat) (s v : Z),
    ok c rs -> rs <> [] ->
    pins c (F c s rs) <> 0 ->
    0 <= v <= pins c (F c s rs) ->
    ok c (rs ++ [v]).
Proof.
  induction rs as [| r | r r2 rest2 IH2 IH1] using list_ind2;
    intros c s v Hok Hne Hp Hv.
  - congruence.
  - rewrite framesFrom_one, pinsFrom_one, single_complete, single_pins,
      andb_false_r in *.
    change ([r] ++ [v]) with [r; v]. rewrite legal_two, !legal_one.
    revert Hp Hv Hok. cbn [legal].
    destruct (isLast nf c); tests; intros; repeat split; lia.
  - change ((r :: r2 :: rest2) ++ [v]) with (r :: r2 :: (rest2 ++ [v])).
    rewrite legal_two in *. rewrite framesFrom_two in *.
    destruct Hok as [Hr Hok]. split; [exact Hr|].
    cbv zeta in *.
    destruct (Z.eqb_spec r vfs) as [Hs|Hs].
    + subst r. destruct (isLast nf c) eqn:Hl.
      * rewrite pinsFrom_one, Hl, strike_complete in *.
        destruct rest2 as [|r3 [|r4 rest4]];
          cbn [app hd_error notNull andb] in *; try lia.
        rewrite strike_pins in *. cbn [andb] in *.
        revert Hp Hv. tests; intros; repeat split; lia.
      * rewrite pinsFrom_step in *.
        eapply (IH1 (S c)); [exact Hok | discriminate | exact Hp | exact Hv].
    + destruct Hok as (Hr2 & Hsum & Hok). split; [exact Hr2|].
      split; [exact Hsum|].
      destruct (Z.eqb_spec (r + r2) vfs) as [Hsp|Hsp].
      * rewrite spare_complete in * by assumption.
        destruct (isLast nf c) eqn:Hl; cbn [andb] in *.
        -- destruct rest2 as [|r3 [|r4 rest4]]; cbn [hd_error notNull] in *.
           ++ cbn [framesFrom] in *.
              rewrite pinsFrom_one, Hl, spare_complete, spare_pins in *
                by assumption.
              cbn [notNull andb app] in *. repeat split; lia.
           ++ rewrite pinsFrom_one, Hl, spare_complete in * by assumption.
              cbn [notNull andb] in *. lia.
           ++ destruct Hok as [_ Hok]; discriminate.
        -- destruct rest2 as [|r3 rest3].
           ++ cbn [framesFrom hd_error] in *.
              rewrite pinsFrom_one, Hl, spare_complete, spare_pins in *
                by assumption.
              cbn [notNull andb app legal] in *. repeat split; lia.
           ++ rewrite pinsFrom_step in *.
              eapply (IH2 (S c));
                [exact Hok | discriminate | exact Hp | exact Hv].
      * destruct (Z.ltb_spec (r + r2) vfs) as [Hop|Hop]; [|lia].
        rewrite open_complete in * by assumption.
        destruct (isLast nf c) eqn:Hl; cbn [andb] in *.
        -- subst rest2.
           rewrite pinsFrom_one, Hl, open_complete in * by assumption.
           cbn [andb] in *. lia.
        -- destruct rest2 as [|r3 rest3].
           ++ cbn [framesFrom] in *.
              rewrite pinsFrom_one, Hl, open_complete in * by assumption.
              cbn [andb app legal] in *. repeat split; lia.
           ++ rewrite pinsFrom_step in *.
              eapply (IH2 (S c));
                [exact Hok | discriminate | exact Hp | exact Hv].
Qed.

Lemma legal_pins_bounds (rs : list Z) :
  forall (c : nat) (s : Z),
    0 <= vfs -> ok c rs -> rs <> [] ->
    0 <= pins c (F c s rs) <= vfs.
Proof.
  induction rs as [| r | r r2 rest2 IH2 IH1] using list_ind2;
    intros c s Hvfs Hok Hne.
  - congruence.
  - rewrite framesFrom_one, pinsFrom_one, single_complete, single_pins,
      andb_false_r.
    rewrite legal_one in Hok. tests; lia.
  - rewrite legal_two in Hok. rewrite framesFrom_two.
    destruct Hok as [Hr Hok]. cbv zeta.
    destruct (Z.eqb_spec r vfs) as [Hs|Hs].
    + subst r. destruct (isLast nf c) eqn:Hl.
      * rewrite pinsFrom_one, Hl, strike_complete.
        destruct rest2 as [|r3 rest3]; cbn [hd_error notNull andb];
          try lia.
        rewrite strike_pins. cbn [andb]. tests; lia.
      * rewrite pinsFrom_step. apply IH1; auto. discriminate.
    + destruct Hok as (Hr2 & Hsum & Hok).
      destruct (Z.eqb_spec (r + r2) vfs) as [Hsp|Hsp].
      * rewrite spare_complete by assumption.
        destruct rest2 as [|r3 rest3]; cbn [hd_error notNull].
        -- rewrite andb_false_r. cbn [framesFrom].
           rewrite pinsFrom_one, spare_complete, spare_pins by assumption.
           cbn [notNull]. rewrite andb_false_r. lia.
        -- rewrite andb_true_r.
           destruct (isLast nf c) eqn:Hl.
           ++ rewrite pinsFrom_one, Hl, spare_complete by assumption.
              cbn [notNull andb]. lia.
           ++ rewrite pinsFrom_step. apply IH2; auto. discriminate.
      * destruct (Z.ltb_spec (r + r2) vfs) as [Hop|Hop]; [|lia].
        rewrite open_complete by assumption. rewrite andb_true_r.
        destruct (isLast nf c) eqn:Hl.
        -- rewrite pinsFrom_one, Hl, open_complete by assumption.
           cbn [andb]. lia.
        -- destruct rest2 as [|r3 rest3].
           ++ cbn [framesFrom].
              rewrite pinsFrom_one, Hl, open_complete by assumption.
              cbn [andb]. lia.
           ++ rewrite pinsFrom_step. apply IH2; auto. discriminate.
Qed.

Lemma legal_completedFirst (rs : list Z) :
  forall (c : nat) (s : Z),
    ok c rs -> completedFirstb (F c s rs) = true.
Proof.
  induction rs as [| r | r r2 rest2 IH2 IH1] using list_ind2;
    intros c s Hok.
  - reflexivity.
  - rewrite framesFrom_one. cbn [completedFirstb forallb].
    now destruct (ScoringFrame.isComplete _).
  - rewrite legal_two in Hok. rewrite framesFrom_two.
    destruct Hok as [Hr Hok]. cbv zeta.
    destruct (Z.eqb_spec r vfs) as [Hs|Hs].
    + subst r. cbn [completedFirstb]. rewrite strike_complete.
      destruct (isLast nf c) eqn:Hl.
      * now destruct (notNull (Some r2) && notNull (hd_error rest2)).
      * destruct rest2 as [|r3 rest3]; cbn [hd_error notNull andb].
        -- rewrite framesFrom_one. cbn [forallb].
           now rewrite single_complete.
        -- apply IH1; auto.
    + destruct Hok as (Hr2 & Hsum & Hok).
      destruct (Z.eqb_spec (r + r2) vfs) as [Hsp|Hsp].
      * cbn [completedFirstb]. rewrite spare_complete by assumption.
        destruct rest2 as [|r3 rest3]; cbn [hd_error notNull].
        -- rewrite andb_false_r. reflexivity.
        -- rewrite andb_true_r. destruct (isLast nf c) eqn:Hl.
           ++ reflexivity.
           ++ apply IH2; auto.
      * destruct (Z.ltb_spec (r + r2) vfs) as [Hop|Hop]; [|lia].
        cbn [completedFirstb]. rewrite open_complete by assumption.
        rewrite andb_true_r. destruct (isLast nf c) eqn:Hl.
        -- reflexivity.
        -- apply IH2; auto.
Qed.

Lemma legal_frame_count (rs : list Z) :
  forall (c : nat) (s : Z),
    ok c rs -> (c < nf)%nat ->
    (c + length (F c s rs) <= nf)%nat.
Proof.
  induction rs as [| r | r r2 rest2 IH2 IH1] using list_ind2;
    intros c s Hok Hc.
  - cbn. lia.
  - cbn. lia.
  - rewrite legal_two in Hok. rewrite framesFrom_two.
    destruct Hok as [Hr Hok]. cbv zeta.
    pose proof (isLast_spec c) as Hlast.
    destruct (Z.eqb_spec r vfs) as [Hs|Hs].
    + destruct (isLast nf c) eqn:Hl; cbn [length]; [lia|].
      symmetry in Hlast. apply Nat.eqb_neq in Hlast.
      specialize (IH1 (S c)
        (ScoringFrame.runningScore
           (ScoringFrame.new (Some r) (Some r2) (hd_error rest2) false s vfs))
        Hok). lia.
    + destruct Hok as (Hr2 & Hsum & Hok).
      destruct (Z.eqb_spec (r + r2) vfs) as [Hsp|Hsp].
      * rewrite spare_complete by assumption.
        destruct (isLast nf c) eqn:Hl; cbn [andb length].
        -- destruct rest2 as [|r3 rest3]; cbn; lia.
        -- symmetry in Hlast. apply Nat.eqb_neq in Hlast.
           specialize (IH2 (S c)
             (ScoringFrame.runningScore
                (ScoringFrame.new (Some r) (Some r2) (hd_error rest2)
                   false s vfs)) Hok). lia.
      * destruct (Z.ltb_spec (r + r2) vfs) as [Hop|Hop]; [|lia].
        rewrite open_complete by assumption.
        destruct (isLast nf c) eqn:Hl; cbn [andb length]; [lia|].
        symmetry in Hlast. apply Nat.eqb_neq in Hlast.
        specialize (IH2 (S c)
          (ScoringFrame.runningScore
             (ScoringFrame.new (Some r) (Some r2) None false s vfs)) Hok).
        lia.
Qed.


End LegalFacts.

(** Pure facts on lists of frames *)




(** ** The game keeps its history legal *)

Lemma pinsAfter_pinsFrom (fs : list ScoringFrame.t) (vfs : Z) (nf : nat) :
  ScoringFrameList.pinsAfter fs vfs nf = pinsFrom vfs nf 0 fs.
Proof.
  unfold ScoringFrameList.pinsAfter, pinsFrom.
  destruct fs as [|f tl]; [reflexivity|].
  cbn [length Nat.eqb Nat.add].
  destruct (ScoringFrameList.mostRecentOf (f :: tl)); reflexivity.
Qed.

Lemma new_remainingPins (rolls : list Z) (vfs : Z) (nf : nat) :
  ScoringFrameList.remainingPins (ScoringFrameList.new rolls vfs nf)
  = pinsFrom vfs nf 0 (framesFrom vfs nf 0 0 rolls).
Proof.
  rewrite <- pinsAfter_pinsFrom, <- scan_framesFrom. reflexivity.
Qed.

Lemma consistent_rebuilt (g : Game.t) :
  legal (Game.valueForStrike g) (Game.numberOfFrames g) 0 (Game.rolls g) ->
  consistent (snd (Game.processRollsToScoringFrames g)).
Proof.
  intros H. split; cbn; [exact H | apply new_remainingPins].
Qed.

(** The two ways a call of [addRoll] ends. *)
Lemma addRoll_cases (g : Game.t) (v : number Z) :
  (threw (fst (Game.addRoll g v)) = true /\ snd (Game.addRoll g v) = g)
  \/ (exists z : Z,
        v = Finite z /\ Game.remainingPins g <> 0
        /\ 0 <= z <= Game.remainingPins g
        /\ Game.addRoll g v
           = (Returned z,
              snd (Game.processRollsToScoringFrames
                     {| Game.valueForStrike := Game.valueForStrike g;
                        Game.numberOfFrames := Game.numberOfFrames g;
                        Game.strikeDisplay := Game.strikeDisplay g;
                        Game.spareDisplay := Game.spareDisplay g;
                        Game.zeroDisplay := Game.zeroDisplay g;
                        Game.rolls := Game.rolls g ++ [z];
                        Game.remainingPins := Game.remainingPins g;
                        Game.isGameOver := Game.isGameOver g |}))).
Proof.
  unfold Game.addRoll.
  destruct (Z.eqb_spec (Game.remainingPins g) 0) as [|Hnz]; [now left|].
  destruct v as [| | |z]; try (now left).
  destruct (Z.leb_spec z (Game.remainingPins g)) as [Hle|]; [|now left].
  destruct (Z.geb_spec z 0) as [Hge|]; [|now left].
  right. exists z. repeat split; auto; lia.
Qed.

Lemma consistent_addRoll (g : Game.t) (v : number Z) :
  consistent g -> consistent (snd (Game.addRoll g v)).
Proof.
  intros [Hok Hpins].
  destruct (addRoll_cases g v) as [[_ ->]|(z & _ & Hnz & Hz & ->)];
    [split; assumption|].
  cbn [snd]. apply consistent_rebuilt. cbn.
  destruct (Game.rolls g) as [|r rest] eqn:Hrolls.
  - cbn in Hpins |- *. unfold pinsFrom in Hpins. cbn in Hpins. lia.
  - rewrite <- Hrolls in *.
    eapply legal_snoc with (s := 0);
      [exact Hok | rewrite Hrolls; discriminate | | ]; rewrite <- Hpins; lia.
Qed.

Lemma consistent_new (vfs : option Z) (nf : option nat)
    (strike spare zero : option string) :
  consistent (Game.new vfs nf strike spare zero).
Proof. split; cbn; [exact I | reflexivity]. Qed.

Lemma consistent_newGame (g : Game.t) : consistent (Game.newGame g).
Proof. split; cbn; [exact I | reflexivity]. Qed.

Lemma reachable_consistent (start g : Game.t) :
  consistent start -> reachable start g -> consistent g.
Proof.
  intros Hs Hr. induction Hr as [|g v _ IH|g _ _|g _ IH|g _ IH].
  - exact Hs.
  - now apply consistent_addRoll.
  - apply consistent_newGame.
  - unfold Game.processRolls.
    destruct (Game.processRollsToScoringFrames g) as [l g'] eqn:E.
    cbn [snd]. change g' with (snd (l, g')). rewrite <- E.
    apply consistent_rebuilt, IH.
  - apply consistent_rebuilt, IH.
Qed.

Lemma reachable_config (start g : Game.t) :
  reachable start g ->
  Game.valueForStrike g = Game.valueForStrike start
  /\ Game.numberOfFrames g = Game.numberOfFrames start.
Proof.
  intros Hr. induction Hr as [|g v _ IH|g _ IH|g _ IH|g _ IH]; auto.
  destruct (addRoll_cases g v) as [[_ ->]|(z & _ & _ & _ & ->)]; exact IH.
Qed.

Lemma reachable_flag (start g : Game.t) :
  Game.isGameOver start = (Game.remainingPins start =? 0) ->
  Game.valueForStrike start <> 0 ->
  reachable start g ->
  Game.isGameOver g = (Game.remainingPins g =? 0).
Proof.
  intros Hs Hv Hr. induction Hr as [|g v Hr IH|g Hr IH|g Hr IH|g Hr IH].
  - exact Hs.
  - destruct (addRoll_cases g v) as [[_ ->]|(z & _ & _ & _ & ->)];
      [exact IH | reflexivity].
  - cbn. destruct (reachable_config _ _ Hr) as [-> _].
    symmetry. now apply Z.eqb_neq.
  - reflexivity.
  - reflexivity.
Qed.

Lemma framesOf_framesFrom (g : Game.t) :
  framesOf g
  = framesFrom (Game.valueForStrike g) (Game.numberOfFrames g) 0 0
      (Game.rolls g).
Proof. apply scan_framesFrom. Qed.

Lemma addRolls_reachable (start g : Game.t) (vs : list Z) :
  reachable start g -> reachable start (snd (Game.addRolls g vs)).
Proof.
  revert g; induction vs as [|v rest IH]; intros g Hg; cbn [Game.addRolls].
  - exact Hg.
  - pose proof (reach_addRoll start g (Finite v) Hg) as Hstep.
    destruct (Game.addRoll g (Finite v)) as [[z|m] g']; cbn [snd] in *.
    + specialize (IH g' Hstep).
      destruct (Game.addRolls g' rest) as [[zs|m] g'']; exact IH.
    + exact Hstep.
Qed.

(** ** The value handed to [addRoll] *)

Lemma integral_spec (q : Q) (z : Z) :
  integral q = Some z -> (q == inject_Z z)%Q.
Proof.
  unfold integral. pose proof (Qred_correct q) as Hred.
  destruct (Qred q) as [n d]. cbn [Qden Qnum].
  destruct (Pos.eqb_spec d 1) as [->|]; [|discriminate].
  intros [= <-]. symmetry. exact Hred.
Qed.

Lemma Qle_bool_inject_r (q : Q) (z hi : Z) :
  (q == inject_Z z)%Q -> Qle_bool q (inject_Z hi) = (z <=? hi).
Proof.
  intros Hq. destruct (Z.leb_spec z hi) as [H|H].
  - apply Qle_bool_iff. rewrite Hq. now rewrite <- Zle_Qle.
  - destruct (Qle_bool q (inject_Z hi)) eqn:E; [|reflexivity].
    apply Qle_bool_iff in E. rewrite Hq, <- Zle_Qle in E. lia.
Qed.

Lemma Qle_bool_inject_l (q : Q) (z : Z) :
  (q == inject_Z z)%Q -> Qle_bool 0 q = (z >=? 0).
Proof.
  intros Hq. rewrite Z.geb_leb. change 0%Q with (inject_Z 0).
  destruct (Z.leb_spec 0 z) as [H|H].
  - apply Qle_bool_iff. rewrite Hq. now rewrite <- Zle_Qle.
  - destruct (Qle_bool (inject_Z 0) q) eqn:E; [|reflexivity].
    apply Qle_bool_iff in E. rewrite Hq, <- Zle_Qle in E. lia.
Qed.

(** On a value that [Number] turns into a whole number, [addRoll] is
    [Game.addRoll] on that number. *)
Lemma addRollValue_integer (StringToNumber : string -> number Q)
    (g : Game.t) (x : JS.value) (q : Q) (z : Z) :
  JS.ToNumber StringToNumber x = Finite q -> integral q = Some z ->
  addRollValue StringToNumber g x
  = (match fst (Game.addRoll g (Finite z)) with
     | Returned _ => Returned q
     | Thrown m => Thrown m
     end,
     Within (snd (Game.addRoll g (Finite z)))).
Proof.
  intros Hx Hz. unfold addRollValue, Game.addRoll. rewrite Hx, Hz.
  pose proof (integral_spec q z Hz) as Hq.
  destruct (Game.remainingPins g =? 0); [reflexivity|].
  rewrite (Qle_bool_inject_r q z _ Hq), (Qle_bool_inject_l q z Hq).
  destruct ((z <=? Game.remainingPins g) && (z >=? 0)); reflexivity.
Qed.

Lemma addRoll_in_range (g : Game.t) (z : Z) :
  Game.remainingPins g <> 0 -> 0 <= z <= Game.remainingPins g ->
  fst (Game.addRoll g (Finite z)) = Returned z
  /\ Game.rolls (snd (Game.addRoll g (Finite z))) = Game.rolls g ++ [z].
Proof.
  intros Hnz Hz. unfold Game.addRoll.
  destruct (Z.eqb_spec (Game.remainingPins g) 0); [contradiction|].
  destruct (Z.leb_spec z (Game.remainingPins g)); [|lia].
  destruct (Z.geb_spec z 0); [|lia].
  split; reflexivity.
Qed.

(** * The claims *)

(** C1: with [valueForStrike = 10] and [numberOfFrames = 10], the twelve
    strikes are all accepted by [Game.addRoll], the last frame's
    [runningScore] is 300, [remainingPins] is 0 after the twelfth strike, and
    after each of the shorter histories (0 to 11 strikes, each accepted too)
    [remainingPins] is positive. *)
Theorem twelve_strikes_score_300 :
  fst (Game.addRolls standard perfect) = Returned perfect
  /\ (exists f : ScoringFrame.t,
        lastOf (framesOf (snd (Game.addRolls standard perfect))) = Some f
        /\ ScoringFrame.runningScore f = 300)
  /\ Game.remainingPins (snd (Game.addRolls standard perfect)) = 0
  /\ Forall (fun k : nat =>
               fst (Game.addRolls standard (repeat 10 k))
               = Returned (repeat 10 k)
               /\ 0 < Game.remainingPins
                        (snd (Game.addRolls standard (repeat 10 k))))
            (seq 0 12).
Proof.
  split; [vm_compute; reflexivity|].
  split; [eexists; split; vm_compute; reflexivity|].
  split; [vm_compute; reflexivity|].
  repeat (constructor; [split; vm_compute; reflexivity|]). constructor.
Qed.

(** [Game.addRoll] from the number [v = Number(rollValue)] on: it throws
    exactly when the game has ended, or [v] is [NaN], or [v] is not inside
    [[0, remainingPins]]; when it throws the game is unchanged, and when it
    does not the number is returned and appended to the history. *)
Lemma addRoll_of_number (g : Game.t) (v : number Z) :
  (threw (fst (Game.addRoll g v)) = true
   <-> Game.remainingPins g = 0 \/ v = NaN
       \/ ~ within v 0 (Game.remainingPins g))
  /\ (threw (fst (Game.addRoll g v)) = true -> snd (Game.addRoll g v) = g)
  /\ (threw (fst (Game.addRoll g v)) = false ->
      exists z : Z,
        v = Finite z
        /\ fst (Game.addRoll g v) = Returned z
        /\ Game.rolls (snd (Game.addRoll g v)) = Game.rolls g ++ [z]).
Proof.
  destruct (addRoll_cases g v) as [[Ht Hs]|(z & -> & Hnz & Hz & Heq)].
  - repeat split; try congruence.
    intros _. revert Ht. unfold Game.addRoll.
    destruct (Z.eqb_spec (Game.remainingPins g) 0) as [|Hnz]; [now left|].
    destruct v as [| | |z]; cbn [within]; try tauto.
    destruct (Z.leb_spec z (Game.remainingPins g));
      destruct (Z.geb_spec z 0); cbn; try discriminate; intros _;
      right; right; lia.
  - rewrite Heq. cbn [fst snd threw within]. repeat split.
    + discriminate.
    + intros [H|[H|H]]; [contradiction | discriminate | contradiction].
    + discriminate.
    + intros _. exists z. repeat split.
Qed.

(** C2: [addRoll] does not throw on every value that is not a number.  A
    game in progress accepts [null], [false], [true], the empty string and
    the empty array: [Number] turns them into 0 or 1, which is returned and
    appended to the history as a roll; and it accepts a number that is not
    whole, while [undefined] is refused.  On every value [rollValue],
    [addRoll] throws exactly when the game has ended (the test of the code:
    [remainingPins == 0]), or [Number(rollValue)] is [NaN], or it is not
    inside [[0, remainingPins]]; when it throws the game is unchanged, and
    when it does not the number is returned and appended to the history. *)
Theorem addRoll_accepts_non_numbers (StringToNumber : string -> number Q)
    (g : Game.t) (rollValue : JS.value) :
  let r := addRollValue StringToNumber g rollValue in
  let v := JS.ToNumber StringToNumber rollValue in
  (0 < Game.remainingPins g ->
   Forall (fun '(x, z) =>
             JS.isNumber x = false
             /\ addRollValue StringToNumber g x
                = (Returned (inject_Z z),
                   Within (snd (Game.addRoll g (Finite z))))
             /\ Game.rolls (snd (Game.addRoll g (Finite z)))
                = Game.rolls g ++ [z])
          coerced)
  /\ (addRollValue StringToNumber defaults (JS.String EmptyString)
      = (Returned 0%Q, Within (snd (Game.addRolls defaults [0])))
      /\ Game.rolls (snd (Game.addRolls defaults [0])) = [0]
      /\ addRollValue StringToNumber defaults (JS.Number (Finite (5 # 2)))
         = (Returned (5 # 2), Beyond [5 # 2])
      /\ addRollValue StringToNumber defaults JS.Undefined
         = (Thrown "The roll value must be a number.", Within defaults))
  /\ (threw (fst r) = true
      <-> Game.remainingPins g = 0 \/ v = NaN
          \/ ~ withinQ v 0 (Game.remainingPins g))
  /\ (threw (fst r) = true -> snd r = Within g)
  /\ (threw (fst r) = false ->
      exists q h : Q,
        v = Finite q /\ fst r = Returned q
        /\ (h == q)%Q /\ historyOf (snd r) = historyOf (Within g) ++ [h]).
Proof.
  intros r v. split; [|split].
  { intros Hpos.
    assert (Hnz : Game.remainingPins g <> 0) by lia.
    assert (Hone : forall x z,
               JS.isNumber x = false ->
               JS.ToNumber StringToNumber x = Finite (inject_Z z) ->
               integral (inject_Z z) = Some z ->
               0 <= z <= Game.remainingPins g ->
               JS.isNumber x = false
               /\ addRollValue StringToNumber g x
                  = (Returned (inject_Z z),
                     Within (snd (Game.addRoll g (Finite z))))
               /\ Game.rolls (snd (Game.addRoll g (Finite z)))
                  = Game.rolls g ++ [z]).
    { intros x z Hx Hv Hi Hz.
      destruct (addRoll_in_range g z Hnz Hz) as [Hret Hrolls].
      split; [exact Hx|]. split; [|exact Hrolls].
      rewrite (addRollValue_integer _ g x _ z Hv Hi). now rewrite Hret. }
    unfold coerced.
    repeat (apply Forall_cons; [apply Hone; try reflexivity; lia|]).
    apply Forall_nil. }
  { split; [|split; [|split]]; vm_compute; reflexivity. }
  subst r v. unfold addRollValue.
  destruct (Z.eqb_spec (Game.remainingPins g) 0) as [Hz|Hnz].
  { cbn. repeat split; auto; discriminate. }
  destruct (JS.ToNumber StringToNumber rollValue) as [| | |q] eqn:Hv;
    cbn [fst snd threw withinQ].
  1-3: repeat split; auto; try discriminate; right; right; tauto.
  destruct (Qle_bool q (inject_Z (Game.remainingPins g))) eqn:Hle;
    destruct (Qle_bool 0 q) eqn:Hge; cbn [andb fst snd threw].
  - apply Qle_bool_iff in Hle, Hge. repeat split; try discriminate.
    + intros [H|[H|H]]; [contradiction | discriminate |].
      exfalso. apply H. split; assumption.
    + intros _. exists q.
      destruct (integral q) as [z|] eqn:Hi.
      * exists (inject_Z z). split; [reflexivity|]. split; [reflexivity|].
        split.
        -- symmetry. now apply integral_spec.
        -- cbn. now rewrite map_app.
      * exists q. repeat split; reflexivity.
  - repeat split; auto; try discriminate. intros _. right. right.
    intros [H _]. apply Qle_bool_iff in H.
    change (inject_Z 0) with 0%Q in H. congruence.
  - repeat split; auto; try discriminate. intros _. right. right.
    intros [_ H]. apply Qle_bool_iff in H. congruence.
  - repeat split; auto; try discriminate. intros _. right. right.
    intros [_ H]. apply Qle_bool_iff in H. congruence.
Qed.






(** C5, amended: a frame that is not the last and whose first roll is
    [valueForStrike] has [isComplete = true] exactly when its two look-ahead
    rolls are both there. *)
Theorem strike_frame_complete_iff_lookahead (r2 r3 : option Z)
    (support vfs : Z) :
  ScoringFrame.isComplete
    (ScoringFrame.new (Some vfs) r2 r3 false support vfs)
  = notNull r2 && notNull r3.
Proof. apply strike_complete. Qed.

(** C5, as stated, fails: after a strike as the first roll of a default
    game, the only frame is not the last, its first roll is
    [valueForStrike], and it is not complete. *)
Lemma fresh_strike_incomplete :
  exists f : ScoringFrame.t,
    framesOf (snd (Game.addRoll defaults (Finite 10))) = [f]
    /\ ScoringFrame.roll1 f = Some (ScoringFrame.valueForStrike f)
    /\ ScoringFrame.isLastFrame f = false
    /\ ScoringFrame.isComplete f = false.
Proof. eexists. repeat split; vm_compute; reflexivity. Qed.

(** C6: in a default game, after the rolls 5, 5, 3 the first frame is a
    spare, is complete, has running score 13 and shows the score "13"; after
    5, 5 alone it is not complete and shows no score. *)
Theorem spare_scored_with_next_roll :
  (fst (Game.addRolls defaults [5; 5; 3]) = Returned [5; 5; 3]
   /\ exists d : DisplayFrame.t,
        nth_error (DisplayFrameList.getFrames
                     (fst (Game.processRolls
                             (snd (Game.addRolls defaults [5; 5; 3]))))) 0
        = Some d
        /\ ScoringFrame.isSecondRollSpare (DisplayFrame.scoringFrame d) = true
        /\ ScoringFrame.isComplete (DisplayFrame.scoringFrame d) = true
        /\ ScoringFrame.runningScore (DisplayFrame.scoringFrame d) = 13
        /\ DisplayFrame.score d = "13"%string)
  /\ (fst (Game.addRolls defaults [5; 5]) = Returned [5; 5]
      /\ exists d : DisplayFrame.t,
           nth_error (DisplayFrameList.getFrames
                        (fst (Game.processRolls
                                (snd (Game.addRolls defaults [5; 5]))))) 0
           = Some d
           /\ ScoringFrame.isComplete (DisplayFrame.scoringFrame d) = false
           /\ DisplayFrame.score d = EmptyString).
Proof.
  split; (split; [vm_compute; reflexivity|]); eexists;
    repeat split; vm_compute; reflexivity.
Qed.

(** C7: [newGame()] empties the history, sets [remainingPins] to
    [valueForStrike] and [isGameOver] to false; [processRolls()] called next
    returns [numberOfFrames] display frames, each with its three slots and
    its score empty, over a frame without rolls. *)
Theorem newGame_shows_blank_card (g : Game.t) :
  Game.rolls (Game.newGame g) = []
  /\ Game.remainingPins (Game.newGame g) = Game.valueForStrike g
  /\ Game.isGameOver (Game.newGame g) = false
  /\ length (DisplayFrameList.getFrames
               (fst (Game.processRolls (Game.newGame g))))
     = Game.numberOfFrames g
  /\ Forall (fun d =>
               blank d
               /\ ScoringFrame.roll1 (DisplayFrame.scoringFrame d) = None
               /\ ScoringFrame.roll2 (DisplayFrame.scoringFrame d) = None
               /\ ScoringFrame.roll3 (DisplayFrame.scoringFrame d) = None)
            (DisplayFrameList.getFrames
               (fst (Game.processRolls (Game.newGame g)))).
Proof.
  repeat split.
  - cbn. rewrite length_map, length_seq. lia.
  - cbn. apply Forall_forall. intros d Hd.
    apply in_map_iff in Hd. destruct Hd as (i & <- & _).
    destruct (Z.of_nat i =? Z.of_nat (Game.numberOfFrames g) - 1);
      repeat split.
Qed.

(** C8: in the core module's [DisplayFrame], built with the characters
    [strike], [spare] and [zero] (["X"] and ["-"] stand in for a strike or a
    zero character that is left out): a frame that is not the last and whose
    first roll is a strike shows an empty first slot and the strike
    character in the second; a slot that shows its roll (no strike or spare
    mark in it) shows the zero character for a roll of 0; and unless
    [valueForStrike] is 0, a roll of 0 never makes the mark of its slot. *)
Theorem strike_and_zero_slots (r1 r2 r3 : option Z) (last : bool)
    (support vfs : Z) (strike spare zero : option string) :
  let sf := ScoringFrame.new r1 r2 r3 last support vfs in
  let d := DisplayFrame.new sf strike spare zero in
  let strikeGlyph := match strike with Some s => s | None => "X"%string end in
  let zeroGlyph := match zero with Some s => s | None => "-"%string end in
  (last = false -> r1 = Some vfs ->
   DisplayFrame.slot1 d = EmptyString
   /\ DisplayFrame.slot2 d = strikeGlyph)
  /\ (ScoringFrame.isFirstRollStrike sf = false -> r1 = Some 0 ->
      DisplayFrame.slot1 d = zeroGlyph)
  /\ ((if last then ScoringFrame.isSecondRollStrike sf
       else ScoringFrame.isFirstRollStrike sf) = false ->
      ScoringFrame.isSecondRollSpare sf = false -> r2 = Some 0 ->
      DisplayFrame.slot2 d = zeroGlyph)
  /\ (last = true -> ScoringFrame.isThirdRollStrike sf = false ->
      ScoringFrame.isThirdRollSpare sf = false -> r3 = Some 0 ->
      DisplayFrame.slot3 d = zeroGlyph)
  /\ (vfs <> 0 ->
      (r1 = Some 0 -> ScoringFrame.isFirstRollStrike sf = false)
      /\ (r2 = Some 0 ->
          ScoringFrame.isSecondRollStrike sf = false
          /\ ScoringFrame.isSecondRollSpare sf = false)
      /\ (r3 = Some 0 ->
          ScoringFrame.isThirdRollStrike sf = false
          /\ ScoringFrame.isThirdRollSpare sf = false)).
Proof.
  intros sf d strikeGlyph zeroGlyph.
  assert (Hlast : ScoringFrame.isLastFrame sf = last) by reflexivity.
  assert (H1 : ScoringFrame.roll1 sf = r1) by reflexivity.
  assert (H2 : ScoringFrame.roll2 sf = r2) by reflexivity.
  assert (H3 : ScoringFrame.roll3 sf = r3) by reflexivity.
  assert (Hstrike : ScoringFrame.isFirstRollStrike sf = looseEq r1 vfs)
    by reflexivity.
  assert (Hs : DisplayFrame.orDefault strike "X" = strikeGlyph)
    by now destruct strike.
  assert (Hz : DisplayFrame.orDefault zero "-" = zeroGlyph)
    by now destruct zero.
  subst d. unfold DisplayFrame.new. rewrite Hlast, H1, H2, H3, Hs, Hz.
  split; [|split; [|split; [|split]]].
  - intros -> Hr. rewrite Hstrike, Hr. cbn. now rewrite Z.eqb_refl.
  - intros -> ->. now destruct last.
  - destruct last; cbn [negb]; intros -> -> ->; reflexivity.
  - intros -> -> -> ->. reflexivity.
  - intros Hv. subst sf. split; [|split].
    + intros ->. frame_solve.
    + intros ->. split; destruct r1; frame_solve.
    + intros ->. split; destruct r1, r2; frame_solve.
Qed.

Lemma strike_and_zero_slots_witness :
  DisplayFrame.slot1
    (DisplayFrame.new (ScoringFrame.new (Some 10) (Some 0) (Some 4) false 0 10)
       (Some "*"%string) (Some "|"%string) (Some "o"%string)) = EmptyString
  /\ DisplayFrame.slot2
       (DisplayFrame.new
          (ScoringFrame.new (Some 10) (Some 0) (Some 4) false 0 10)
          (Some "*"%string) (Some "|"%string) (Some "o"%string)) = "*"%string
  /\ DisplayFrame.slot1
       (DisplayFrame.new (ScoringFrame.new (Some 0) (Some 4) None false 0 10)
          (Some "*"%string) (Some "|"%string) (Some "o"%string)) = "o"%string
  /\ DisplayFrame.slot2
       (DisplayFrame.new
          (ScoringFrame.new (Some 10) (Some 0) (Some 4) false 0 10)
          None None None) = "X"%string
  /\ DisplayFrame.slot2
       (DisplayFrame.new (ScoringFrame.new (Some 4) (Some 0) None false 0 10)
          None None None) = "-"%string.
Proof.
  destruct (strike_and_zero_slots (Some 10) (Some 0) (Some 4) false 0 10
              (Some "*"%string) (Some "|"%string) (Some "o"%string))
    as (Hs & _).
  destruct (strike_and_zero_slots (Some 0) (Some 4) None false 0 10
              (Some "*"%string) (Some "|"%string) (Some "o"%string))
    as (_ & Hz & _).
  destruct (strike_and_zero_slots (Some 10) (Some 0) (Some 4) false 0 10
              None None None) as (Hd & _).
  destruct (strike_and_zero_slots (Some 4) (Some 0) None false 0 10
              None None None) as (_ & _ & Hz2 & _).
  destruct (Hs eq_refl eq_refl) as [Ha Hb].
  destruct (Hd eq_refl eq_refl) as [_ Hc].
  split; [exact Ha|]. split; [exact Hb|].
  split; [apply Hz; reflexivity|].
  split; [exact Hc|].
  apply Hz2; reflexivity.
Defined.

(** C9: the setter of the ability level does not throw for [NaN]: [typeof
    NaN] is ['number'] and both comparisons with [NaN] are false, so [NaN]
    replaces the stored value. *)
Theorem setter_stores_NaN (r : RandomRoller.t) :
  RandomRoller.setPctToHitRemainingPins r (RandomRoller.Number NaN)
  = (Returned tt, {| RandomRoller.pctToHitRemainingPins := NaN |}).
Proof. reflexivity. Qed.

(** C10, amended: when [valueForStrike] is positive, after the construction
    of a game and after every call of [addRoll], [newGame], [processRolls] or
    [processRollsToScoringFrames], [remainingPins] is between 0 and
    [valueForStrike], and [isGameOver] is true exactly when [remainingPins]
    is 0. *)
Theorem pins_in_range_and_flag (vfs : option Z) (nf : option nat)
    (strike spare zero : option string) (g : Game.t) :
  0 < Game.valueForStrike (Game.new vfs nf strike spare zero) ->
  reachable (Game.new vfs nf strike spare zero) g ->
  0 <= Game.remainingPins g <= Game.valueForStrike g
  /\ (Game.isGameOver g = true <-> Game.remainingPins g = 0).
Proof.
  intros Hpos Hr.
  destruct (reachable_consistent _ _ (consistent_new _ _ _ _ _) Hr)
    as [Hok Hpins].
  destruct (reachable_config _ _ Hr) as [Hv _].
  split.
  - rewrite Hpins.
    destruct (Game.rolls g) as [|r rest] eqn:Hrolls.
    + cbn. unfold pinsFrom. cbn. lia.
    + rewrite <- Hrolls in *.
      apply legal_pins_bounds; [lia | exact Hok | rewrite Hrolls; discriminate].
  - rewrite (reachable_flag (Game.new vfs nf strike spare zero) g).
    + apply Z.eqb_eq.
    + cbn in *. symmetry. apply Z.eqb_neq. lia.
    + lia.
    + exact Hr.
Qed.

Lemma pins_in_range_and_flag_witness :
  0 < Game.valueForStrike defaults
  /\ reachable defaults (snd (Game.addRolls defaults [10; 3]))
  /\ 0 <= Game.remainingPins (snd (Game.addRolls defaults [10; 3]))
     <= Game.valueForStrike (snd (Game.addRolls defaults [10; 3])).
Proof.
  assert (Hpos : 0 < Game.valueForStrike defaults) by (cbn; lia).
  assert (Hr : reachable defaults (snd (Game.addRolls defaults [10; 3])))
    by (apply addRolls_reachable, reach_constructed).
  split; [exact Hpos|]. split; [exact Hr|].
  exact (proj1 (pins_in_range_and_flag None None None None None _ Hpos Hr)).
Defined.

(** C10, as stated, fails: a game constructed with [valueForStrike = 0] has
    [remainingPins = 0] and [isGameOver = false]. *)
Lemma zero_pins_game_not_over :
  reachable pinless pinless
  /\ ~ (Game.isGameOver pinless = true <-> Game.remainingPins pinless = 0).
Proof.
  split; [constructor|].
  intros [_ H]. specialize (H eq_refl). discriminate.
Qed.

(** * Further properties of the code *)

Section ScoreFacts.
Variable vfs : Z.
Variable nf : nat.

Local Abbreviation F := (framesFrom vfs nf).
Local Abbreviation pins := (pinsFrom vfs nf).
Local Abbreviation ok := (legal vfs nf).

Lemma framesFrom_carried (rs : list Z) :
  forall (c : nat) (s : Z), carried s (F c s rs).
Proof.
  induction rs as [| r | r r2 rest2 IH2 IH1] using list_ind2; intros c s.
  - exact I.
  - rewrite framesFrom_one. repeat split.
  - rewrite framesFrom_two. cbv zeta.
    repeat match goal with
           | |- context [if ?b then _ else _] => destruct b
           end;
      (split; [reflexivity|];
       split; [reflexivity | first [exact I | apply IH1 | apply IH2]]).
Qed.

Lemma legal_rolls_in_range (rs : list Z) :
  forall c : nat, ok c rs -> Forall (inRange vfs) rs.
Proof.
  unfold inRange.
  induction rs as [| r | r r2 rest2 IH2 IH1] using list_ind2; intros c Hok.
  - constructor.
  - destruct Hok as [Hr _]. repeat constructor; lia.
  - rewrite legal_two in Hok. destruct Hok as [Hr Hok].
    constructor; [exact Hr|].
    destruct (Z.eqb_spec r vfs) as [Hs|Hs].
    + destruct (isLast nf c).
      * destruct Hok as [Hr2 Hok]. constructor; [exact Hr2|].
        destruct rest2 as [|r3 rest3]; [constructor|].
        destruct Hok as (H3 & Hsum & ->).
        repeat constructor; [lia|]. revert Hsum. tests; lia.
      * exact (IH1 _ Hok).
    + destruct Hok as (Hr2 & Hsum & Hok).
      constructor; [lia|].
      destruct (isLast nf c).
      * revert Hok. tests; intros Hok.
        -- destruct rest2 as [|r3 rest3]; [constructor|].
           destruct Hok as [H3 ->]. repeat constructor; lia.
        -- subst. constructor.
      * exact (IH2 _ Hok).
Qed.


Lemma hd_error_in_range (rs : list Z) :
  Forall (inRange vfs) rs -> 0 <= num (hd_error rs) <= Z.max 0 vfs.
Proof.
  intros H. destruct H as [|r rest Hr _]; cbn; unfold inRange in *; lia.
Qed.

Lemma new_score (r1 r2 r3 : option Z) (l : bool) (s : Z) :
  ScoringFrame.scoreForFrame (ScoringFrame.new r1 r2 r3 l s vfs)
  = num r1 + num r2 + num r3.
Proof. reflexivity. Qed.

Lemma new_running (r1 r2 r3 : option Z) (l : bool) (s : Z) :
  ScoringFrame.runningScore (ScoringFrame.new r1 r2 r3 l s vfs)
  = s + (num r1 + num r2 + num r3).
Proof. reflexivity. Qed.

Lemma framesFrom_scores (rs : list Z) :
  forall (c : nat) (s : Z),
    Forall (inRange vfs) rs ->
    Forall (fun f => 0 <= ScoringFrame.scoreForFrame f <= 3 * vfs)
           (F c s rs).
Proof.
  induction rs as [| r | r r2 rest2 IH2 IH1] using list_ind2;
    intros c s Hall.
  - constructor.
  - rewrite framesFrom_one. inversion Hall; subst. unfold inRange in *.
    repeat constructor; rewrite new_score; cbn [num]; lia.
  - rewrite framesFrom_two. cbv zeta.
    inversion Hall as [|? ? Hr Hrest]; subst.
    inversion Hrest as [|? ? Hr2 Hrest2]; subst.
    pose proof (hd_error_in_range _ Hrest2) as H3.
    unfold inRange in Hr, Hr2.
    repeat match goal with
           | |- context [if ?b then _ else _] => destruct b
           end;
      (constructor;
       [rewrite new_score; cbn [num]; lia
       | first [constructor | now apply IH1 | now apply IH2]]).
Qed.
End ScoreFacts.

Lemma carried_running_bounds (fs : list ScoringFrame.t) :
  forall (s b : Z),
    0 <= b ->
    carried s fs ->
    Forall (fun f => 0 <= ScoringFrame.scoreForFrame f <= b) fs ->
    Forall (fun f =>
              s <= ScoringFrame.supportingScore f
              /\ ScoringFrame.supportingScore f <= ScoringFrame.runningScore f
              /\ ScoringFrame.runningScore f <= s + b * Z.of_nat (length fs))
           fs.
Proof.
  induction fs as [|f tl IH]; intros s b Hb Hc Hall; [constructor|].
  destruct Hc as (Hs & Hr & Hc). inversion Hall as [|? ? Hf Htl]; subst.
  constructor.
  - cbn [length]. nia.
  - specialize (IH _ _ Hb Hc Htl).
    eapply Forall_impl; [|exact IH]. cbn beta. intros g Hg.
    cbn [length]. nia.
Qed.

Section FinishedFacts.
Variable vfs : Z.
Variable nf : nat.

Local Abbreviation F := (framesFrom vfs nf).
Local Abbreviation pins := (pinsFrom vfs nf).
Local Abbreviation ok := (legal vfs nf).

Lemma finishedFrom_one (c : nat) (f : ScoringFrame.t) :
  isLast nf c = true -> ScoringFrame.isComplete f = true ->
  finishedFrom nf c [f].
Proof.
  intros Hl Hf. rewrite isLast_spec in Hl. apply Nat.eqb_eq in Hl.
  split; [cbn; lia | exists f; split; [reflexivity | exact Hf]].
Qed.

Lemma finishedFrom_step (c : nat) (f : ScoringFrame.t) (s r : Z)
    (rest : list Z) :
  finishedFrom nf (S c) (F (S c) s (r :: rest)) ->
  finishedFrom nf c (f :: F (S c) s (r :: rest)).
Proof.
  destruct (framesFrom_nonempty vfs nf (S c) s r rest) as (g & tl & ->).
  intros [Hlen Hm]. split; [cbn [length] in *; lia | exact Hm].
Qed.

Lemma legal_pins_zero (rs : list Z) :
  forall (c : nat) (s : Z),
    0 < vfs -> ok c rs -> rs <> [] ->
    pins c (F c s rs) = 0 -> finishedFrom nf c (F c s rs).
Proof.
  induction rs as [| r | r r2 rest2 IH2 IH1] using list_ind2;
    intros c s Hvfs Hok Hne.
  - congruence.
  - rewrite framesFrom_one, pinsFrom_one, single_complete, single_pins,
      andb_false_r.
    rewrite legal_one in Hok. tests; lia.
  - rewrite legal_two in Hok. rewrite framesFrom_two.
    destruct Hok as [Hr Hok]. cbv zeta.
    destruct (Z.eqb_spec r vfs) as [Hs|Hs].
    + subst r. destruct (isLast nf c) eqn:Hl.
      * rewrite pinsFrom_one, Hl, strike_complete.
        destruct rest2 as [|r3 rest3]; cbn [hd_error notNull andb].
        -- rewrite strike_pins. cbn [andb]. tests; lia.
        -- intros _. apply finishedFrom_one; [exact Hl|].
           now rewrite strike_complete.
      * rewrite pinsFrom_step. intros Hz. apply finishedFrom_step.
        apply IH1; auto. discriminate.
    + destruct Hok as (Hr2 & Hsum & Hok).
      destruct (Z.eqb_spec (r + r2) vfs) as [Hsp|Hsp].
      * rewrite spare_complete by assumption.
        destruct rest2 as [|r3 rest3]; cbn [hd_error notNull].
        -- rewrite andb_false_r. cbn [framesFrom].
           rewrite pinsFrom_one, spare_complete, spare_pins by assumption.
           cbn [notNull]. rewrite andb_false_r. lia.
        -- rewrite andb_true_r.
           destruct (isLast nf c) eqn:Hl.
           ++ intros _. apply finishedFrom_one; [exact Hl|].
              now rewrite spare_complete.
           ++ rewrite pinsFrom_step. intros Hz. apply finishedFrom_step.
              apply IH2; auto. discriminate.
      * destruct (Z.ltb_spec (r + r2) vfs) as [Hop|Hop]; [|lia].
        rewrite open_complete by assumption. rewrite andb_true_r.
        destruct (isLast nf c) eqn:Hl.
        -- intros _. apply finishedFrom_one; [exact Hl|].
           now rewrite open_complete.
        -- destruct rest2 as [|r3 rest3].
           ++ cbn [framesFrom].
              rewrite pinsFrom_one, Hl, open_complete by assumption.
              cbn [andb]. lia.
           ++ rewrite pinsFrom_step. intros Hz. apply finishedFrom_step.
              apply IH2; auto. discriminate.
Qed.

Lemma finished_pins_zero (fs : list ScoringFrame.t) :
  finishedFrom nf 0 fs -> pins 0 fs = 0.
Proof.
  intros (Hlen & m & Hm & Hc). unfold pinsFrom.
  rewrite mostRecentOf_lastOf, Hm, Hc.
  apply Nat.eqb_eq in Hlen. now rewrite Hlen.
Qed.
End FinishedFacts.


Lemma reachable_glyphs (start g : Game.t) :
  reachable start g ->
  Game.strikeDisplay g = Game.strikeDisplay start
  /\ Game.spareDisplay g = Game.spareDisplay start
  /\ Game.zeroDisplay g = Game.zeroDisplay start.
Proof.
  intros Hr. induction Hr as [|g v _ IH|g _ IH|g _ IH|g _ IH]; auto.
  destruct (addRoll_cases g v) as [[_ ->]|(z & _ & _ & _ & ->)]; exact IH.
Qed.

(** X5: every roll in the history of a game is between 0 and
    [valueForStrike]. *)
Theorem accepted_rolls_in_range (vfs : option Z) (nf : option nat)
    (strike spare zero : option string) (g : Game.t) :
  reachable (Game.new vfs nf strike spare zero) g ->
  Forall (fun r => 0 <= r <= Game.valueForStrike g) (Game.rolls g).
Proof.
  intros Hr.
  destruct (reachable_consistent _ _ (consistent_new _ _ _ _ _) Hr)
    as [Hok _].
  exact (legal_rolls_in_range _ _ _ _ Hok).
Qed.

Lemma accepted_rolls_in_range_witness :
  reachable defaults sampleGame
  /\ Forall (fun r =>
               0 <= r
               <= Game.valueForStrike sampleGame)
            (Game.rolls sampleGame).
Proof.
  assert (Hr : reachable defaults sampleGame)
    by (apply (addRolls_reachable defaults defaults), reach_constructed).
  split; [exact Hr|].
  exact (accepted_rolls_in_range None None None None None _ Hr).
Defined.



(** X7: in a game of at least one frame in which
    [3 * valueForStrike * numberOfFrames] is at most [2^53] (every sum the
    scan makes is then a whole number that a double holds exactly), the
    running scores never decrease from frame to frame, start at 0 or above,
    and never exceed [3 * valueForStrike * numberOfFrames]. *)
Theorem scores_bounded (vfs : option Z) (nf : option nat)
    (strike spare zero : option string) (g : Game.t) :
  (1 <= Game.numberOfFrames g)%nat ->
  3 * Game.valueForStrike g * Z.of_nat (Game.numberOfFrames g) <= 2 ^ 53 ->
  reachable (Game.new vfs nf strike spare zero) g ->
  Forall (fun f =>
            0 <= ScoringFrame.supportingScore f
            /\ ScoringFrame.supportingScore f <= ScoringFrame.runningScore f
            /\ ScoringFrame.runningScore f
               <= 3 * Game.valueForStrike g * Z.of_nat (Game.numberOfFrames g))
         (framesOf g).
Proof.
  intros Hnf _ Hr.
  destruct (reachable_consistent _ _ (consistent_new _ _ _ _ _) Hr)
    as [Hok _].
  rewrite framesOf_framesFrom.
  pose proof (legal_rolls_in_range _ _ _ _ Hok) as Hall.
  pose proof (legal_frame_count _ _ _ 0%nat 0 Hok) as Hcount.
  destruct (Game.rolls g) as [|r rest] eqn:Hrolls; [constructor|].
  rewrite <- Hrolls in *.
  assert (Hv : 0 <= Game.valueForStrike g).
  { rewrite Hrolls in Hall. inversion Hall; subst. unfold inRange in *. lia. }
  pose proof (carried_running_bounds _ 0 (3 * Game.valueForStrike g)
                ltac:(lia)
                (framesFrom_carried (Game.valueForStrike g)
                   (Game.numberOfFrames g) (Game.rolls g) 0%nat 0)
                (framesFrom_scores (Game.valueForStrike g)
                   (Game.numberOfFrames g) (Game.rolls g) 0%nat 0 Hall))
    as Hb.
  eapply Forall_impl; [|exact Hb]. cbn beta. intros f Hf. nia.
Qed.

Lemma scores_bounded_witness :
  (1 <= Game.numberOfFrames sampleGame)%nat
  /\ 3 * Game.valueForStrike sampleGame
       * Z.of_nat (Game.numberOfFrames sampleGame) <= 2 ^ 53
  /\ reachable defaults sampleGame
  /\ Forall (fun f => ScoringFrame.runningScore f <= 300)
            (framesOf sampleGame).
Proof.
  assert (Hnf : (1 <= Game.numberOfFrames sampleGame)%nat)
    by (vm_compute; lia).
  assert (Hr : reachable defaults sampleGame)
    by (apply (addRolls_reachable defaults defaults), reach_constructed).
  assert (Hx : 3 * Game.valueForStrike sampleGame
               * Z.of_nat (Game.numberOfFrames sampleGame) <= 2 ^ 53)
    by (vm_compute; discriminate).
  split; [exact Hnf|]. split; [exact Hx|]. split; [exact Hr|].
  eapply Forall_impl;
    [|exact (scores_bounded None None None None None _ Hnf Hx Hr)].
  cbn beta. intros f (_ & _ & H).
  change (3 * Game.valueForStrike sampleGame
          * Z.of_nat (Game.numberOfFrames sampleGame))
    with 300 in H.
  exact H.
Defined.

(** X9: with a positive [valueForStrike], [remainingPins] of a game is 0
    exactly when its history yields [numberOfFrames] frames and the last of
    them is complete. *)
Theorem over_iff_last_frame_complete (vfs : option Z) (nf : option nat)
    (strike spare zero : option string) (g : Game.t) :
  0 < Game.valueForStrike g ->
  reachable (Game.new vfs nf strike spare zero) g ->
  Game.remainingPins g = 0
  <-> (length (framesOf g) = Game.numberOfFrames g
       /\ exists m,
            lastOf (framesOf g) = Some m
            /\ ScoringFrame.isComplete m = true).
Proof.
  intros Hv Hr.
  destruct (reachable_consistent _ _ (consistent_new _ _ _ _ _) Hr)
    as [Hok Hpins].
  rewrite framesOf_framesFrom, Hpins.
  split.
  - intros Hz.
    destruct (Game.rolls g) as [|r rest] eqn:Hrolls.
    + cbn in Hz. unfold pinsFrom in Hz. cbn in Hz. lia.
    + rewrite <- Hrolls in *.
      apply (legal_pins_zero _ _ _ 0%nat 0 Hv Hok); [|exact Hz].
      rewrite Hrolls. discriminate.
  - intros H. now apply finished_pins_zero.
Qed.

Lemma over_iff_last_frame_complete_witness :
  0 < Game.valueForStrike sampleGame
  /\ reachable defaults sampleGame
  /\ length (framesOf sampleGame) <> 10%nat
  /\ Game.remainingPins sampleGame <> 0.
Proof.
  assert (Hpos : 0 < Game.valueForStrike
                       sampleGame)
    by (vm_compute; reflexivity).
  assert (Hr : reachable defaults sampleGame)
    by (apply (addRolls_reachable defaults defaults), reach_constructed).
  assert (Hlen : length (framesOf sampleGame)
                 <> 10%nat)
    by (vm_compute; discriminate).
  split; [exact Hpos|]. split; [exact Hr|]. split; [exact Hlen|].
  intros Hz.
  destruct (proj1 (over_iff_last_frame_complete None None None None None
                     _ Hpos Hr) Hz) as [Hfull _].
  exact (Hlen Hfull).
Defined.



(** X12: when [valueForStrike] is not 0, [processRolls()] leaves the game
    as it is: history, [remainingPins] and [isGameOver] are those it already
    had. *)
Theorem processRolls_is_a_query (vfs : option Z) (nf : option nat)
    (strike spare zero : option string) (g : Game.t) :
  Game.valueForStrike (Game.new vfs nf strike spare zero) <> 0 ->
  reachable (Game.new vfs nf strike spare zero) g ->
  snd (Game.processRolls g) = g.
Proof.
  intros Hv Hr.
  destruct (reachable_consistent _ _ (consistent_new _ _ _ _ _) Hr)
    as [_ Hpins].
  assert (Hflag : Game.isGameOver g = (Game.remainingPins g =? 0)).
  { apply (reachable_flag (Game.new vfs nf strike spare zero) g);
      [|exact Hv | exact Hr].
    cbn in *. symmetry. now apply Z.eqb_neq. }
  unfold Game.processRolls.
  change (snd (let '(sfl, g') := Game.processRollsToScoringFrames g in
               (DisplayFrameList.new sfl (Some (Game.strikeDisplay g'))
                  (Some (Game.spareDisplay g')) (Some (Game.zeroDisplay g')),
                g')))
    with (snd (Game.processRollsToScoringFrames g)).
  unfold Game.processRollsToScoringFrames. cbn [snd].
  rewrite new_remainingPins, <- Hpins, <- Hflag.
  now destruct g.
Qed.

Lemma processRolls_is_a_query_witness :
  Game.valueForStrike defaults <> 0
  /\ reachable defaults (Game.newGame sampleGame)
  /\ snd (Game.processRolls
            (Game.newGame sampleGame))
     = Game.newGame sampleGame.
Proof.
  assert (Hv : Game.valueForStrike defaults <> 0) by (cbn; lia).
  assert (Hr : reachable defaults
                 (Game.newGame sampleGame))
    by (apply reach_newGame, addRolls_reachable, reach_constructed).
  split; [exact Hv|]. split; [exact Hr|].
  exact (processRolls_is_a_query None None None None None _ Hv Hr).
Defined.

(** X13: [newGame()] puts a game back in the state its constructor
    made. *)
Theorem newGame_restores_start (vfs : option Z) (nf : option nat)
    (strike spare zero : option string) (g : Game.t) :
  reachable (Game.new vfs nf strike spare zero) g ->
  Game.newGame g = Game.new vfs nf strike spare zero.
Proof.
  intros Hr.
  destruct (reachable_config _ _ Hr) as [Hv Hn].
  destruct (reachable_glyphs _ _ Hr) as (H1 & H2 & H3).
  unfold Game.newGame. rewrite Hv, Hn, H1, H2, H3. reflexivity.
Qed.

Lemma newGame_restores_start_witness :
  reachable defaults sampleGame
  /\ Game.newGame sampleGame = defaults.
Proof.
  assert (Hr : reachable defaults sampleGame)
    by (apply (addRolls_reachable defaults defaults), reach_constructed).
  split; [exact Hr|].
  exact (newGame_restores_start None None None None None _ Hr).
Defined.

(** X15: the [DisplayFrame] of [bowling_classes.js] and the one of
    [bowling_classes_core.js] show the same score and the same third slot;
    they show the same first and second slot except for a strike in a frame
    that is not the last, where the web one has the strike character in the
    first slot and nothing in the second, and the core one the reverse. *)
Theorem display_conventions_differ_by_a_swap (sf : ScoringFrame.t)
    (strike spare zero : option string) :
  let core := DisplayFrame.new sf strike spare zero in
  let web := WebDisplayFrame.new sf strike spare zero in
  DisplayFrame.score web = DisplayFrame.score core
  /\ DisplayFrame.slot3 web = DisplayFrame.slot3 core
  /\ (if negb (ScoringFrame.isLastFrame sf)
         && ScoringFrame.isFirstRollStrike sf
      then DisplayFrame.slot1 web = DisplayFrame.slot2 core
           /\ DisplayFrame.slot2 web = DisplayFrame.slot1 core
           /\ DisplayFrame.slot1 web = DisplayFrame.strikeDisplay web
           /\ DisplayFrame.slot2 web = EmptyString
      else DisplayFrame.slot1 web = DisplayFrame.slot1 core
           /\ DisplayFrame.slot2 web = DisplayFrame.slot2 core).
Proof.
  unfold DisplayFrame.new, WebDisplayFrame.new.
  destruct (ScoringFrame.isLastFrame sf), (ScoringFrame.isFirstRollStrike sf);
    cbn; repeat split.
Qed.

Lemma toString_not_empty (z : Z) : toString z <> EmptyString.
Proof.
  unfold toString.
  destruct z as [|p|p]; cbn.
  - discriminate.
  - destruct (Pos.to_uint p); discriminate.
  - discriminate.
Qed.

(** X14: the score string of a display frame is empty exactly when its
    scoring frame is not complete. *)
Theorem score_shown_iff_complete (sf : ScoringFrame.t)
    (strike spare zero : option string) :
  DisplayFrame.score (DisplayFrame.new sf strike spare zero) = EmptyString
  <-> ScoringFrame.isComplete sf = false.
Proof.
  unfold DisplayFrame.new.
  destruct (negb (ScoringFrame.isLastFrame sf)); cbn [DisplayFrame.score];
    destruct (ScoringFrame.isComplete sf); cbn [negb]; split; auto.
  all: try discriminate.
  all: intros H; exfalso; exact (toString_not_empty _ H).
Qed.

Lemma score_shown_iff_complete_witness :
  DisplayFrame.score
    (DisplayFrame.new (ScoringFrame.new (Some 5) None None false 0 10)
       None None None) = EmptyString.
Proof.
  apply (proj2 (score_shown_iff_complete
                  (ScoringFrame.new (Some 5) None None false 0 10)
                  None None None)).
  reflexivity.
Defined.

Lemma setter_outcomes (r : RandomRoller.t) (x : RandomRoller.value) :
  x <> RandomRoller.Number NaN ->
  (RandomRoller.isNumber x = false ->
   threw (fst (RandomRoller.setPctToHitRemainingPins r x)) = true
   /\ snd (RandomRoller.setPctToHitRemainingPins r x) = r)
  /\ (forall n : number Q,
        x = RandomRoller.Number n ->
        (~ unitInterval n ->
         threw (fst (RandomRoller.setPctToHitRemainingPins r x)) = true
         /\ snd (RandomRoller.setPctToHitRemainingPins r x) = r)
        /\ (unitInterval n ->
            RandomRoller.setPctToHitRemainingPins r x
            = (Returned tt, {| RandomRoller.pctToHitRemainingPins := n |}))).
Proof.
  intros Hx. split.
  - destruct x; cbn; intros; try discriminate; auto.
  - intros n ->. unfold RandomRoller.setPctToHitRemainingPins.
    destruct n as [| | |q]; cbn [RandomRoller.lt RandomRoller.gt orb unitInterval];
      try tauto; try (split; [now split | tauto]).
    destruct (Qle_bool 0 q) eqn:H0; destruct (Qle_bool q 1) eqn:H1;
      cbn [negb orb];
      try apply Qle_bool_iff in H0; try apply Qle_bool_iff in H1.
    + split; [tauto | reflexivity].
    + split; [now split|]. intros [_ H]. apply Qle_bool_iff in H. congruence.
    + split; [now split|]. intros [H _]. apply Qle_bool_iff in H. congruence.
    + split; [now split|]. intros [H _]. apply Qle_bool_iff in H. congruence.
Qed.

(** X16: on every input other than [NaN], the setter of the ability level
    throws and keeps the stored value when the input is not a number or is a
    number outside [[0, 1]], and stores a number inside [[0, 1]]. *)
Theorem setter_on_valid_inputs (r : RandomRoller.t) (x : RandomRoller.value) :
  x <> RandomRoller.Number NaN ->
  (RandomRoller.isNumber x = false ->
   threw (fst (RandomRoller.setPctToHitRemainingPins r x)) = true
   /\ snd (RandomRoller.setPctToHitRemainingPins r x) = r)
  /\ (forall n : number Q,
        x = RandomRoller.Number n ->
        (~ unitInterval n ->
         threw (fst (RandomRoller.setPctToHitRemainingPins r x)) = true
         /\ snd (RandomRoller.setPctToHitRemainingPins r x) = r)
        /\ (unitInterval n ->
            RandomRoller.setPctToHitRemainingPins r x
            = (Returned tt, {| RandomRoller.pctToHitRemainingPins := n |}))).
Proof.
  exact (setter_outcomes r x).
Qed.

Lemma setter_on_valid_inputs_witness :
  RandomRoller.Number (Finite (1 # 2)) <> RandomRoller.Number NaN
  /\ unitInterval (Finite (1 # 2))
  /\ RandomRoller.setPctToHitRemainingPins
       {| RandomRoller.pctToHitRemainingPins := Finite 0%Q |}
       (RandomRoller.Number (Finite (1 # 2)))
     = (Returned tt,
        {| RandomRoller.pctToHitRemainingPins := Finite (1 # 2) |}).
Proof.
  assert (Hx : RandomRoller.Number (Finite (1 # 2))
               <> RandomRoller.Number NaN) by discriminate.
  assert (Hin : unitInterval (Finite (1 # 2)))
    by (split; unfold Qle; cbn; lia).
  split; [exact Hx|]. split; [exact Hin|].
  destruct (setter_on_valid_inputs
              {| RandomRoller.pctToHitRemainingPins := Finite 0%Q |}
              _ Hx) as [_ H].
  exact (proj2 (H _ eq_refl) Hin).
Defined.

(** X17: the constructor [RandomRoller(pct)] gives ability 0 when the
    argument is left out and the given number when it is inside [[0, 1]]; it
    throws for a number other than [NaN] outside [[0, 1]] and for a
    value that is not a number. *)
Theorem constructor_ability (x : RandomRoller.value) :
  (x = RandomRoller.Undefined ->
   RandomRoller.new x
   = Returned {| RandomRoller.pctToHitRemainingPins := Finite 0%Q |})
  /\ (forall n : number Q,
        x = RandomRoller.Number n -> unitInterval n ->
        RandomRoller.new x
        = Returned {| RandomRoller.pctToHitRemainingPins := n |})
  /\ (forall n : number Q,
        x = RandomRoller.Number n -> n <> NaN -> ~ unitInterval n ->
        threw (RandomRoller.new x) = true)
  /\ (RandomRoller.isNumber x = false -> x <> RandomRoller.Undefined ->
      threw (RandomRoller.new x) = true).
Proof.
  split; [intros ->; reflexivity|].
  pose (r0 := {| RandomRoller.pctToHitRemainingPins := Finite 0%Q |}).
  split; [|split].
  - intros n -> Hn.
    assert (Hx : RandomRoller.Number n <> RandomRoller.Number NaN)
      by (intros [= ->]; exact Hn).
    destruct (setter_outcomes r0 _ Hx) as [_ H].
    destruct (H n eq_refl) as [_ Hin].
    unfold RandomRoller.new. fold r0. now rewrite (Hin Hn).
  - intros n -> Hnan Hn.
    assert (Hx : RandomRoller.Number n <> RandomRoller.Number NaN)
      by congruence.
    destruct (setter_outcomes r0 _ Hx) as [_ H].
    destruct (H n eq_refl) as [Hout _]. destruct (Hout Hn) as [Ht _].
    unfold RandomRoller.new. fold r0.
    destruct (RandomRoller.setPctToHitRemainingPins r0 (RandomRoller.Number n))
      as [[u|m] r']; [discriminate | reflexivity].
  - destruct x; cbn; intros; try discriminate; try reflexivity; congruence.
Qed.

Lemma constructor_ability_witness :
  unitInterval (Finite 1%Q)
  /\ RandomRoller.new (RandomRoller.Number (Finite 1%Q))
     = Returned {| RandomRoller.pctToHitRemainingPins := Finite 1%Q |}.
Proof.
  assert (Hin : unitInterval (Finite 1%Q))
    by (split; unfold Qle; cbn; lia).
  split; [exact Hin|].
  destruct (constructor_ability (RandomRoller.Number (Finite 1%Q)))
    as (_ & H & _).
  exact (H _ eq_refl Hin).
Defined.

(** X2: for every roll list, legal or not, the frames the scan builds are
    chained: the first has supporting score 0, each next one the running
    score of the frame before it, and each running score is the supporting
    score plus the frame's own score. *)
Theorem scan_chains_scores (rolls : list Z) (vfs : Z) (nf : nat) :
  carried 0 (ScoringFrameList.getFrames (ScoringFrameList.new rolls vfs nf)).
Proof.
  unfold ScoringFrameList.getFrames. rewrite scan_framesFrom.
  apply framesFrom_carried.
Qed.

(** X1: the scan loop of [ScoringFrameList] ends: after [rolls.length]
    iterations at most [rollIndex] has reached [rolls.length]; and every
    iteration that starts inside the list moves [rollIndex] forward and
    appends exactly one frame. *)
Theorem scan_reads_all_rolls (rolls : list Z) (vfs : Z) (nf : nat) :
  (length rolls
   <= ScoringFrameList.rollIndex (ScoringFrameList.scanned rolls vfs nf))%nat
  /\ forall st : ScoringFrameList.scan,
       (ScoringFrameList.rollIndex st < length rolls)%nat ->
       (ScoringFrameList.rollIndex st
        < ScoringFrameList.rollIndex (ScoringFrameList.iteration rolls vfs nf st))%nat
       /\ length (ScoringFrameList.frames
                    (ScoringFrameList.iteration rolls vfs nf st))
          = S (length (ScoringFrameList.frames st)).
Proof.
  split; [apply loop_exits|].
  intros st Hlt. split.
  - pose proof (iteration_advances rolls vfs nf st). lia.
  - destruct st as [i fs].
    destruct (iteration_framesFrom rolls vfs nf i fs Hlt) as (sf & i' & -> & _).
    cbn. rewrite length_app. cbn. lia.
Qed.

Lemma scan_reads_all_rolls_witness :
  (0 < length sampleRolls)%nat
  /\ (0 < ScoringFrameList.rollIndex
            (ScoringFrameList.iteration sampleRolls 10 10
               {| ScoringFrameList.rollIndex := 0;
                  ScoringFrameList.frames := [] |}))%nat.
Proof.
  destruct (scan_reads_all_rolls sampleRolls 10 10) as [_ H].
  assert (Hlt : (0 < length sampleRolls)%nat) by (cbn; lia).
  split; [exact Hlt|].
  exact (proj1 (H {| ScoringFrameList.rollIndex := 0;
                     ScoringFrameList.frames := [] |} Hlt)).
Defined.

Section PrefixFacts.
Variable vfs : Z.
Variable nf : nat.

Local Abbreviation F := (framesFrom vfs nf).
Local Abbreviation pins := (pinsFrom vfs nf).
Local Abbreviation ok := (legal vfs nf).

Lemma snoc_single {A : Type} (l : list A) (v a : A) :
  l ++ [v] = [a] -> l = [] /\ v = a.
Proof.
  destruct l as [|b l]; cbn; intros H.
  - now injection H as ->.
  - injection H as _ H. destruct l; discriminate.
Qed.

Lemma legal_snoc_inv (rs : list Z) :
  forall (c : nat) (s v : Z),
    0 < vfs -> ok c (rs ++ [v]) -> rs <> [] ->
    ok c rs /\ pins c (F c s rs) <> 0 /\ 0 <= v <= pins c (F c s rs).
Proof.
  induction rs as [| r | r r2 rest2 IH2 IH1] using list_ind2;
    intros c s v Hvfs Hok Hne.
  - congruence.
  - change ([r] ++ [v]) with [r; v] in Hok. rewrite legal_two in Hok.
    rewrite framesFrom_one, pinsFrom_one, single_complete, single_pins,
      andb_false_r, legal_one.
    destruct Hok as [Hr Hok]. revert Hok. cbn [legal].
    destruct (isLast nf c); tests; intros; repeat split; lia.
  - change ((r :: r2 :: rest2) ++ [v]) with (r :: r2 :: (rest2 ++ [v]))
      in Hok.
    rewrite legal_two in *. rewrite framesFrom_two.
    destruct Hok as [Hr Hok]. cbv zeta.
    destruct (Z.eqb_spec r vfs) as [Hs|Hs].
    + subst r. destruct (isLast nf c) eqn:Hl.
      * destruct Hok as [Hr2 Hok].
        destruct (rest2 ++ [v]) as [|r3 rest3] eqn:Happ;
          [destruct rest2; discriminate|].
        destruct Hok as (H3 & Hsum & ->).
        apply snoc_single in Happ. destruct Happ as [-> ->].
        rewrite pinsFrom_one, Hl, strike_complete, strike_pins.
        cbn [hd_error notNull andb].
        revert Hsum. tests; intros; repeat split; lia.
      * rewrite pinsFrom_step.
        destruct (IH1 (S c)
                    (ScoringFrame.runningScore
                       (ScoringFrame.new (Some vfs) (Some r2)
                          (hd_error rest2) false s vfs)) v Hvfs Hok)
          as (Ha & Hb & Hc); [discriminate|].
        exact (conj (conj Hr Ha) (conj Hb Hc)).
    + destruct Hok as (Hr2 & Hsum & Hok).
      destruct (Z.eqb_spec (r + r2) vfs) as [Hsp|Hsp].
      * rewrite spare_complete by assumption.
        destruct (isLast nf c) eqn:Hl; cbn [andb].
        -- destruct (rest2 ++ [v]) as [|r3 rest3] eqn:Happ;
             [destruct rest2; discriminate|].
           destruct Hok as (H3 & ->).
           apply snoc_single in Happ. destruct Happ as [-> ->].
           cbn [hd_error notNull framesFrom].
           rewrite pinsFrom_one, Hl, spare_complete, spare_pins
             by assumption.
           cbn [notNull andb]. repeat split; lia.
        -- destruct rest2 as [|r3 rest3].
           ++ cbn [app legal] in Hok. cbn [framesFrom hd_error].
              rewrite pinsFrom_one, Hl, spare_complete, spare_pins
                by assumption.
              cbn [notNull andb legal]. repeat split; lia.
           ++ rewrite pinsFrom_step.
              destruct (IH2 (S c)
                          (ScoringFrame.runningScore
                             (ScoringFrame.new (Some r) (Some r2)
                                (hd_error (r3 :: rest3)) false s vfs))
                          v Hvfs Hok)
                as (Ha & Hb & Hc); [discriminate|].
              exact (conj (conj Hr (conj Hr2 (conj Hsum Ha))) (conj Hb Hc)).
      * destruct (Z.ltb_spec (r + r2) vfs) as [Hop|Hop]; [|lia].
        rewrite open_complete by assumption.
        destruct (isLast nf c) eqn:Hl; cbn [andb].
        -- destruct rest2; discriminate.
        -- destruct rest2 as [|r3 rest3].
           ++ cbn [app legal] in Hok. cbn [framesFrom].
              rewrite pinsFrom_one, Hl, open_complete by assumption.
              cbn [andb legal]. repeat split; lia.
           ++ rewrite pinsFrom_step.
              destruct (IH2 (S c)
                          (ScoringFrame.runningScore
                             (ScoringFrame.new (Some r) (Some r2) None
                                false s vfs))
                          v Hvfs Hok)
                as (Ha & Hb & Hc); [discriminate|].
              exact (conj (conj Hr (conj Hr2 (conj Hsum Ha))) (conj Hb Hc)).
Qed.

Lemma legal_prefix (ys : list Z) :
  forall (c : nat) (rs : list Z),
    0 < vfs -> ok c (rs ++ ys) -> ok c rs.
Proof.
  induction ys as [|y ys IH] using rev_ind; intros c rs Hvfs Hok.
  - now rewrite app_nil_r in Hok.
  - rewrite app_assoc in Hok.
    destruct (rs ++ ys) as [|a l] eqn:Happ.
    + destruct rs; [exact I | discriminate].
    + apply IH; [exact Hvfs|]. rewrite Happ.
      apply (legal_snoc_inv (a :: l) c 0 y Hvfs Hok). discriminate.
Qed.
End PrefixFacts.

Lemma addRoll_accepts (g : Game.t) (z : Z) :
  Game.remainingPins g <> 0 -> 0 <= z <= Game.remainingPins g ->
  exists g',
    Game.addRoll g (Finite z) = (Returned z, g')
    /\ Game.rolls g' = Game.rolls g ++ [z]
    /\ Game.valueForStrike g' = Game.valueForStrike g
    /\ Game.numberOfFrames g' = Game.numberOfFrames g.
Proof.
  intros Hnz Hz.
  destruct (addRoll_cases g (Finite z)) as [[Ht _]|(z' & [= <-] & _ & _ & ->)].
  - exfalso. revert Ht. unfold Game.addRoll.
    destruct (Z.eqb_spec (Game.remainingPins g) 0); [contradiction|].
    destruct (Z.leb_spec z (Game.remainingPins g)); [|lia].
    destruct (Z.geb_spec z 0); [|lia]. discriminate.
  - eexists. repeat split.
Qed.

Lemma addRolls_returned (vs : list Z) :
  forall (g : Game.t) (zs : list Z),
    fst (Game.addRolls g vs) = Returned zs ->
    zs = vs /\ Game.rolls (snd (Game.addRolls g vs)) = Game.rolls g ++ vs.
Proof.
  induction vs as [|v rest IH]; intros g zs; cbn [Game.addRolls].
  - cbn. intros [= <-]. now rewrite app_nil_r.
  - destruct (addRoll_cases g (Finite v))
      as [[Ht _]|(z & [= <-] & _ & _ & Heq)].
    + destruct (Game.addRoll g (Finite v)) as [[z|m] g']; [discriminate|].
      discriminate.
    + rewrite Heq.
      match goal with
      | |- context [Game.addRolls ?g1 rest] =>
          specialize (IH g1); destruct (Game.addRolls g1 rest) as [[ys|m] g'']
      end; cbn [fst snd] in *; [|discriminate].
      intros [= <-]. destruct (IH ys eq_refl) as [-> Hrolls].
      split; [reflexivity|]. rewrite Hrolls.
      cbn [Game.rolls snd Game.processRollsToScoringFrames].
      now rewrite <- app_assoc.
Qed.

Lemma addRolls_accepts_legal (rest : list Z) :
  forall g : Game.t,
    0 < Game.valueForStrike g -> consistent g ->
    legal (Game.valueForStrike g) (Game.numberOfFrames g) 0
      (Game.rolls g ++ rest) ->
    fst (Game.addRolls g rest) = Returned rest.
Proof.
  induction rest as [|v rest IH]; intros g Hv Hg Hok; [reflexivity|].
  cbn [Game.addRolls].
  assert (Hok1 : legal (Game.valueForStrike g) (Game.numberOfFrames g) 0
                   (Game.rolls g ++ [v])).
  { apply (legal_prefix _ _ rest); [exact Hv|].
    now rewrite <- app_assoc. }
  destruct Hg as [Hlegal Hpins].
  assert (Hacc : Game.remainingPins g <> 0 /\ 0 <= v <= Game.remainingPins g).
  { rewrite Hpins. destruct (Game.rolls g) as [|r rs] eqn:Hrolls.
    - cbn in Hok1 |- *. unfold pinsFrom. cbn. lia.
    - rewrite <- Hrolls in *.
      apply (legal_snoc_inv _ _ (Game.rolls g) 0%nat 0 v Hv Hok1).
      rewrite Hrolls. discriminate. }
  destruct (addRoll_accepts g v (proj1 Hacc) (proj2 Hacc))
    as (g' & Heq & Hrolls & Hv' & Hn').
  pose proof (consistent_addRoll g (Finite v) (conj Hlegal Hpins)) as Hg'.
  rewrite Heq in *. cbn [snd] in Hg'.
  specialize (IH g'). rewrite Hv', Hn', Hrolls, <- app_assoc in IH.
  specialize (IH Hv Hg' Hok).
  destruct (Game.addRolls g' rest) as [[zs|m] g'']; cbn [fst] in *;
    [|discriminate].
  now injection IH as ->.
Qed.



Section StrikeFacts.
Variable vfs : Z.
Variable nf : nat.

Local Abbreviation F := (framesFrom vfs nf).
Local Abbreviation pins := (pinsFrom vfs nf).
Local Abbreviation ok := (legal vfs nf).

Lemma isLast_true (c : nat) : (S c = nf)%nat -> isLast nf c = true.
Proof. intros H. rewrite isLast_spec. now apply Nat.eqb_eq. Qed.

Lemma isLast_false (c : nat) : (S c <> nf)%nat -> isLast nf c = false.
Proof. intros H. rewrite isLast_spec. now apply Nat.eqb_neq. Qed.

Lemma legal_strikes (d : nat) :
  forall c : nat,
    0 <= vfs -> (c + d + 1 = nf)%nat -> ok c (repeat vfs (3 + d)).
Proof.
  induction d as [|d IH]; intros c Hv Hc.
  - cbn [repeat Nat.add]. rewrite legal_two, Z.eqb_refl, isLast_true by lia.
    repeat split; lia.
  - change (repeat vfs (3 + S d)) with (vfs :: vfs :: repeat vfs (2 + d)).
    rewrite legal_two, Z.eqb_refl, isLast_false by lia.
    split; [lia|].
    change (vfs :: repeat vfs (2 + d)) with (repeat vfs (3 + d)).
    apply IH; [exact Hv | lia].
Qed.

Lemma frames_strikes (d : nat) :
  forall (c : nat) (s : Z),
    (c + d + 1 = nf)%nat ->
    length (F c s (repeat vfs (3 + d))) = S d
    /\ exists f,
         lastOf (F c s (repeat vfs (3 + d))) = Some f
         /\ ScoringFrame.isComplete f = true
         /\ ScoringFrame.runningScore f = s + 3 * vfs * Z.of_nat (S d).
Proof.
  induction d as [|d IH]; intros c s Hc.
  - cbn [repeat Nat.add]. rewrite framesFrom_two, Z.eqb_refl. cbv zeta.
    rewrite isLast_true by lia. split; [reflexivity|].
    eexists. split; [reflexivity|]. split.
    + now rewrite strike_complete.
    + rewrite new_running. cbn [hd_error num]. lia.
  - change (repeat vfs (3 + S d)) with (vfs :: vfs :: repeat vfs (2 + d)).
    rewrite framesFrom_two, Z.eqb_refl. cbv zeta.
    rewrite isLast_false by lia.
    change (vfs :: repeat vfs (2 + d)) with (repeat vfs (3 + d)).
    match goal with
    | |- context [F (S c) ?s' _] =>
        destruct (IH (S c) s' ltac:(lia)) as (Hlen & f & Hlast & Hcomp & Hrun)
    end.
    split; [cbn [length]; now rewrite Hlen|].
    exists f. split; [|split; [exact Hcomp|]].
    + destruct (F (S c) _ (repeat vfs (3 + d))) eqn:E; [discriminate|].
      exact Hlast.
    + rewrite Hrun. cbn [hd_error repeat Nat.add].
      rewrite new_running. cbn [num]. lia.
Qed.
End StrikeFacts.

(** X8: for every positive [valueForStrike] and every [numberOfFrames >= 1]
    with [3 * valueForStrike * numberOfFrames] at most [2^53] (every sum the
    scan makes is then a whole number that a double holds exactly),
    [numberOfFrames + 2] strikes in a row are all accepted, end the game,
    and give the last frame the running score
    [3 * valueForStrike * numberOfFrames]. *)
Theorem perfect_game (vfs : Z) (nf : nat)
    (strike spare zero : option string) :
  0 < vfs -> (1 <= nf)%nat -> 3 * vfs * Z.of_nat nf <= 2 ^ 53 ->
  let start := Game.new (Some vfs) (Some nf) strike spare zero in
  let g := snd (Game.addRolls start (repeat vfs (nf + 2))) in
  fst (Game.addRolls start (repeat vfs (nf + 2)))
  = Returned (repeat vfs (nf + 2))
  /\ Game.remainingPins g = 0
  /\ Game.isGameOver g = true
  /\ exists f,
       lastOf (framesOf g) = Some f
       /\ ScoringFrame.runningScore f = 3 * vfs * Z.of_nat nf.
Proof.
  intros Hv Hnf _ start g.
  assert (Hk : (nf + 2 = 3 + (nf - 1))%nat) by lia.
  assert (Hok : legal vfs nf 0 (repeat vfs (nf + 2))).
  { rewrite Hk. apply legal_strikes; lia. }
  assert (Hret : fst (Game.addRolls start (repeat vfs (nf + 2)))
                 = Returned (repeat vfs (nf + 2))).
  { apply (addRolls_accepts_legal _ start Hv
             (consistent_new (Some vfs) (Some nf) strike spare zero)).
    exact Hok. }
  destruct (addRolls_returned _ start _ Hret) as [_ Hrolls].
  assert (Hr : reachable start g)
    by (apply addRolls_reachable, reach_constructed).
  destruct (reachable_consistent start g
              (consistent_new (Some vfs) (Some nf) strike spare zero) Hr)
    as [_ Hpins].
  destruct (reachable_config _ _ Hr) as [Hv' Hn'].
  change (Game.rolls g = [] ++ repeat vfs (nf + 2)) in Hrolls.
  change (Game.valueForStrike g = vfs) in Hv'.
  change (Game.numberOfFrames g = nf) in Hn'.
  cbn [app] in Hrolls.
  destruct (frames_strikes vfs nf (nf - 1) 0%nat 0 ltac:(lia))
    as (Hlen & f & Hlast & Hcomp & Hrun).
  rewrite <- Hk in *.
  assert (Hfr : framesOf g = framesFrom vfs nf 0 0 (repeat vfs (nf + 2))).
  { rewrite framesOf_framesFrom. now rewrite Hv', Hn', Hrolls. }
  assert (Hz : Game.remainingPins g = 0).
  { rewrite Hpins, Hv', Hn', Hrolls.
    apply finished_pins_zero. split; [cbn; lia | eauto]. }
  split; [exact Hret|]. split; [exact Hz|]. split.
  - rewrite (reachable_flag start g); [now rewrite Hz | | | exact Hr].
    + cbn. symmetry. apply Z.eqb_neq. lia.
    + cbn. lia.
  - exists f. rewrite Hfr. split; [exact Hlast|]. rewrite Hrun. 
    replace (S (nf - 1)) with nf by lia. lia.
Qed.

Lemma perfect_game_witness :
  0 < 10 /\ (1 <= 10)%nat /\ 3 * 10 * Z.of_nat 10 <= 2 ^ 53
  /\ Game.remainingPins
       (snd (Game.addRolls (Game.new (Some 10) (Some 10%nat) None None None)
               (repeat 10 (10 + 2)))) = 0.
Proof.
  assert (Hpos : 0 < 10) by lia.
  assert (Hnf : (1 <= 10)%nat) by lia.
  assert (Hx : 3 * 10 * Z.of_nat 10 <= 2 ^ 53)
    by (vm_compute; discriminate).
  split; [exact Hpos|]. split; [exact Hnf|]. split; [exact Hx|].
  exact (proj1 (proj2 (perfect_game 10 10 None None None Hpos Hnf Hx))).
Defined.

Section StabilityFacts.
Variable vfs : Z.
Variable nf : nat.

Local Abbreviation F := (framesFrom vfs nf).
Local Abbreviation pins := (pinsFrom vfs nf).
Local Abbreviation ok := (legal vfs nf).
Local Abbreviation finished := (finishedFrom nf).

Lemma finishedFrom_single_inv (c : nat) (f : ScoringFrame.t) :
  finished c [f] -> isLast nf c = true /\ ScoringFrame.isComplete f = true.
Proof.
  intros (Hlen & m & [= <-] & Hc). split; [|exact Hc].
  apply isLast_true. cbn in Hlen. lia.
Qed.

Lemma finishedFrom_cons_inv (c : nat) (f : ScoringFrame.t) (s r : Z)
    (rest : list Z) :
  finished c (f :: F (S c) s (r :: rest)) ->
  finished (S c) (F (S c) s (r :: rest)).
Proof.
  destruct (framesFrom_nonempty vfs nf (S c) s r rest) as (g & tl & ->).
  intros [Hlen Hm]. split; [cbn [length] in *; lia | exact Hm].
Qed.

Lemma framesFrom_finished_app (rs : list Z) :
  forall (c : nat) (s : Z) (extra : list Z),
    finished c (F c s rs) -> F c s (rs ++ extra) = F c s rs.
Proof.
  induction rs as [| r | r r2 rest2 IH2 IH1] using list_ind2;
    intros c s extra Hfin.
  - destruct Hfin as (_ & m & Hm & _). discriminate.
  - rewrite framesFrom_one in Hfin.
    apply finishedFrom_single_inv in Hfin.
    rewrite single_complete in Hfin. destruct Hfin; discriminate.
  - change ((r :: r2 :: rest2) ++ extra)
      with (r :: r2 :: (rest2 ++ extra)).
    rewrite framesFrom_two in Hfin. rewrite !framesFrom_two.
    cbv zeta in *.
    destruct rest2 as [|r3 rest3].
    + (* the third roll is missing *)
      cbn [hd_error framesFrom] in Hfin.
      cbn [app hd_error framesFrom].
      destruct (Z.eqb_spec r vfs) as [Hs|Hs].
      * exfalso. subst r. destruct (isLast nf c).
        -- apply finishedFrom_single_inv in Hfin.
           rewrite strike_complete in Hfin. destruct Hfin; discriminate.
        -- destruct Hfin as (_ & m & [= <-] & Hc).
           rewrite single_complete in Hc. discriminate.
      * destruct (Z.eqb_spec (r + r2) vfs) as [Hsp|Hsp].
        -- exfalso. rewrite spare_complete in Hfin by assumption.
           cbn [notNull] in Hfin. rewrite andb_false_r in Hfin.
           apply finishedFrom_single_inv in Hfin.
           rewrite spare_complete in Hfin by assumption.
           destruct Hfin; discriminate.
        -- destruct (Z.ltb_spec (r + r2) vfs) as [Hop|Hop].
           ++ rewrite open_complete in * by assumption.
              rewrite andb_true_r in *.
              destruct (isLast nf c) eqn:Hl; [reflexivity|].
              apply finishedFrom_single_inv in Hfin.
              rewrite Hl in Hfin. destruct Hfin; discriminate.
           ++ exfalso. rewrite single_complete, andb_false_r in Hfin.
              destruct Hfin as (_ & m & [= <-] & Hc).
              rewrite single_complete in Hc. discriminate.
    + (* the third roll is there *)
      cbn [app hd_error] in *.
      destruct (r =? vfs).
      * destruct (isLast nf c); [reflexivity|].
        f_equal. apply finishedFrom_cons_inv in Hfin.
        exact (IH1 _ _ extra Hfin).
      * destruct (r + r2 =? vfs); [|destruct (r + r2 <? vfs)];
          match goal with
          | |- context [isLast nf c && ?b] => destruct (isLast nf c && b)
          end; try reflexivity; f_equal;
          apply finishedFrom_cons_inv in Hfin.
        -- exact (IH2 _ _ extra Hfin).
        -- exact (IH2 _ _ extra Hfin).
        -- exact (IH1 _ _ extra Hfin).
Qed.

Lemma all_incomplete_nth (fs : list ScoringFrame.t) (k : nat)
    (f : ScoringFrame.t) :
  forallb (fun g => negb (ScoringFrame.isComplete g)) fs = true ->
  nth_error fs k = Some f -> ScoringFrame.isComplete f = false.
Proof.
  intros Hall Hk. rewrite forallb_forall in Hall.
  specialize (Hall f (nth_error_In _ _ Hk)).
  now destruct (ScoringFrame.isComplete f).
Qed.

Lemma complete_frames_stable (rs : list Z) :
  forall (c : nat) (s v : Z) (k : nat) (f : ScoringFrame.t),
    ok c rs -> ok c (rs ++ [v]) ->
    nth_error (F c s rs) k = Some f ->
    ScoringFrame.isComplete f = true ->
    nth_error (F c s (rs ++ [v])) k = Some f.
Proof.
  induction rs as [| r | r r2 rest2 IH2 IH1] using list_ind2;
    intros c s v k f Hok Hok' Hk Hf.
  - destruct k; discriminate.
  - exfalso. rewrite framesFrom_one in Hk.
    destruct k as [|[|k]]; try discriminate.
    injection Hk as <-. rewrite single_complete in Hf. discriminate.
  - pose proof (legal_completedFirst _ _ _ c s Hok) as Hcf.
    change ((r :: r2 :: rest2) ++ [v]) with (r :: r2 :: (rest2 ++ [v]))
      in *.
    rewrite legal_two in Hok, Hok'.
    rewrite framesFrom_two in Hk. rewrite framesFrom_two.
    cbv zeta in *.
    destruct Hok as [Hr Hok]. destruct Hok' as [_ Hok'].
    destruct rest2 as [|r3 rest3].
    + (* the third roll is missing *)
      cbn [hd_error framesFrom app] in *.
      destruct (Z.eqb_spec r vfs) as [Hs|Hs].
      * exfalso. subst r.
        cbn [completedFirstb] in Hcf. rewrite strike_complete in Hcf.
        cbn [notNull andb] in Hcf.
        destruct k as [|k].
        -- injection Hk as <-. rewrite strike_complete in Hf. discriminate.
        -- cbn [nth_error] in Hk.
           rewrite (all_incomplete_nth _ _ _ Hcf Hk) in Hf. discriminate.
      * destruct Hok as (Hr2 & Hsum & Hok).
        destruct (Z.eqb_spec (r + r2) vfs) as [Hsp|Hsp].
        -- exfalso. rewrite spare_complete in Hk by assumption.
           cbn [notNull] in Hk. rewrite andb_false_r in Hk.
           destruct k as [|[|k]]; try discriminate.
           injection Hk as <-.
           rewrite spare_complete in Hf by assumption. discriminate.
        -- destruct (Z.ltb_spec (r + r2) vfs) as [Hop|Hop]; [|lia].
           rewrite open_complete in * by assumption.
           rewrite andb_true_r in *.
           destruct k as [|k]; [exact Hk|].
           cbn [nth_error] in Hk. exfalso.
           destruct (isLast nf c); destruct k; discriminate.
    + (* the third roll is there *)
      cbn [app hd_error] in *.
      destruct (Z.eqb_spec r vfs) as [Hs|Hs].
      * destruct k as [|k]; [exact Hk|]. cbn [nth_error] in *.
        destruct (isLast nf c); [exact Hk|].
        exact (IH1 _ _ v k f Hok Hok' Hk Hf).
      * destruct Hok as (Hr2 & Hsum & Hok).
        destruct Hok' as (_ & _ & Hok').
        destruct (Z.eqb_spec (r + r2) vfs) as [Hsp|Hsp];
          [|destruct (Z.ltb_spec (r + r2) vfs) as [Hop|Hop]; [|lia]];
          (destruct k as [|k]; [exact Hk|]); cbn [nth_error] in *;
          destruct (isLast nf c) eqn:Hl; cbn [andb] in *;
          try exact (IH2 _ _ v k f Hok Hok' Hk Hf).
        -- rewrite spare_complete in * by assumption.
           cbn [notNull] in *. exact Hk.
        -- rewrite open_complete in * by assumption. exact Hk.
Qed.
End StabilityFacts.

(** X3: when the scan of a roll list yields [numberOfFrames] frames of which
    the last is complete, rolls appended to the list change nothing: the
    frames are the same and [remainingPins] is 0. *)
Theorem rolls_after_the_end_are_ignored (rolls extra : list Z) (vfs : Z)
    (nf : nat) :
  let fs := ScoringFrameList.getFrames (ScoringFrameList.new rolls vfs nf) in
  length fs = nf ->
  (exists m, lastOf fs = Some m /\ ScoringFrame.isComplete m = true) ->
  ScoringFrameList.getFrames (ScoringFrameList.new (rolls ++ extra) vfs nf)
  = fs
  /\ ScoringFrameList.remainingPins
       (ScoringFrameList.new (rolls ++ extra) vfs nf) = 0.
Proof.
  intros fs Hlen Hm. subst fs. unfold ScoringFrameList.getFrames in *.
  rewrite new_remainingPins, !scan_framesFrom in *.
  assert (Hfin : finishedFrom nf 0 (framesFrom vfs nf 0 0 rolls))
    by (split; [cbn; lia | exact Hm]).
  rewrite framesFrom_finished_app by exact Hfin.
  split; [reflexivity | now apply finished_pins_zero].
Qed.

Lemma rolls_after_the_end_are_ignored_witness :
  ScoringFrameList.remainingPins
    (ScoringFrameList.new (perfect ++ [5; 5]) 10 10) = 0.
Proof.
  assert (Hlen : length (ScoringFrameList.getFrames
                           (ScoringFrameList.new perfect 10 10)) = 10%nat)
    by (vm_compute; reflexivity).
  assert (Hm : exists m,
             lastOf (ScoringFrameList.getFrames
                       (ScoringFrameList.new perfect 10 10)) = Some m
             /\ ScoringFrame.isComplete m = true)
    by (eexists; split; vm_compute; reflexivity).
  exact (proj2 (rolls_after_the_end_are_ignored perfect [5; 5] 10 10 Hlen Hm)).
Defined.

(** X10: a frame that is complete stays as it is: after any further call
    of [addRoll], thrown or not, the frame at the same position is the same
    frame (same rolls, same scores, same flags). *)
Theorem completed_frames_never_change (vfs : option Z) (nf : option nat)
    (strike spare zero : option string) (g : Game.t) (v : number Z)
    (k : nat) (f : ScoringFrame.t) :
  reachable (Game.new vfs nf strike spare zero) g ->
  nth_error (framesOf g) k = Some f ->
  ScoringFrame.isComplete f = true ->
  nth_error (framesOf (snd (Game.addRoll g v))) k = Some f.
Proof.
  intros Hr Hk Hf.
  pose proof (reach_addRoll _ _ v Hr) as Hr'.
  destruct (reachable_consistent _ _ (consistent_new _ _ _ _ _) Hr)
    as [Hok _].
  destruct (reachable_consistent _ _ (consistent_new _ _ _ _ _) Hr')
    as [Hok' _].
  rewrite framesOf_framesFrom in *.
  destruct (addRoll_cases g v) as [[_ Heq]|(z & _ & _ & _ & Heq)];
    rewrite Heq in *; [exact Hk|].
  cbn [snd Game.processRollsToScoringFrames Game.rolls Game.valueForStrike
       Game.numberOfFrames] in *.
  now apply complete_frames_stable.
Qed.

Lemma completed_frames_never_change_witness :
  reachable defaults (snd (Game.addRolls defaults [5; 5; 3]))
  /\ nth_error
       (framesOf (snd (Game.addRoll (snd (Game.addRolls defaults [5; 5; 3]))
                         (Finite 4)))) 0
     = Some (ScoringFrame.new (Some 5) (Some 5) (Some 3) false 0 10).
Proof.
  assert (Hr : reachable defaults (snd (Game.addRolls defaults [5; 5; 3])))
    by (apply addRolls_reachable, reach_constructed).
  split; [exact Hr|].
  apply (completed_frames_never_change None None None None None _
           (Finite 4) 0 _ Hr).
  - vm_compute. reflexivity.
  - vm_compute. reflexivity.
Defined.

Lemma placeholder_blank (b : bool) (vfs : Z) (strike spare zero : option string) :
  blank (DisplayFrame.new (ScoringFrame.new None None None b 0 vfs)
           strike spare zero).
Proof. destruct b; repeat split. Qed.

(** X18: the display frame at a position where the history has a scoring
    frame is the display of that frame with the game's characters; every
    display frame after these is blank. *)
Theorem card_shows_frames_then_blanks (g : Game.t) (k : nat) :
  (forall sf : ScoringFrame.t,
     nth_error (framesOf g) k = Some sf ->
     nth_error (card g) k
     = Some (DisplayFrame.new sf (Some (Game.strikeDisplay g))
               (Some (Game.spareDisplay g)) (Some (Game.zeroDisplay g))))
  /\ ((length (framesOf g) <= k)%nat ->
      forall d : DisplayFrame.t, nth_error (card g) k = Some d -> blank d).
Proof.
  unfold card, framesOf. cbn. split.
  - intros sf Hk.
    rewrite nth_error_app1
      by (rewrite length_map; apply nth_error_Some; congruence).
    now rewrite nth_error_map, Hk.
  - intros Hk d Hd.
    rewrite nth_error_app2 in Hd by (rewrite length_map; exact Hk).
    apply nth_error_In, in_map_iff in Hd. destruct Hd as (i & <- & _).
    apply placeholder_blank.
Qed.

Lemma card_shows_frames_then_blanks_witness :
  (length (framesOf sampleGame) <= 7)%nat
  /\ exists d : DisplayFrame.t,
       nth_error (card sampleGame) 7 = Some d /\ blank d.
Proof.
  assert (Hlen : (length (framesOf sampleGame) <= 7)%nat)
    by (vm_compute; lia).
  split; [exact Hlen|].
  exists (DisplayFrame.new (ScoringFrame.new None None None false 0 10)
            (Some "X"%string) (Some "/"%string) (Some "-"%string)).
  assert (Hd : nth_error (card sampleGame) 7
               = Some (DisplayFrame.new
                         (ScoringFrame.new None None None false 0 10)
                         (Some "X"%string) (Some "/"%string)
                         (Some "-"%string)))
    by (vm_compute; reflexivity).
  split; [exact Hd|].
  exact (proj2 (card_shows_frames_then_blanks sampleGame 7) Hlen _ Hd).
Defined.
